(** * Clustering-company: the correlation service

    A shallow embedding of [correlation_module.py] and of the request
    handler of [app.py], and the properties of the specification that
    are settled on it.

    Numbers.  A pandas float64 cell is either a finite number or NaN
    (the missing-value marker).  Finite numbers are modelled exactly, as
    rationals [Q]; rounding, overflow and the infinities of IEEE
    arithmetic are outside the model.  Equality of numbers is [Qeq]
    ([==]), as [1#2] and [2#4] are the same number.

    Library calls.  The pandas and numpy operations the two source files
    call ([df[fields]], [dropna], [quantile], comparison and boolean
    indexing, [corr], [replace], [unique], [groupby]) are modelled by
    their documented behaviour on numeric frames, one definition per
    call, under the name of the call. *)

From Stdlib Require Import QArith Qround Qabs Qreduction Lqa.
From Stdlib Require Qcanon.
From Stdlib Require Import ZArith Zdivisibility Lia.
From Stdlib Require Import List String Bool Arith.
From Stdlib Require Import SetoidList Sorted.
Import ListNotations.

Local Open Scope Q_scope.

(* ================================================================== *)
(** ** Exceptions *)

(** The only exception the modelled code can raise on a numeric frame is
    the [KeyError] of a label lookup. *)
Inductive exc (A : Type) : Type :=
| Ok (a : A)
| KeyError (key : string).
Arguments Ok {A} a.
Arguments KeyError {A} key.

Definition bind {A B : Type} (c : exc A) (k : A -> exc B) : exc B :=
  match c with
  | Ok a => k a
  | KeyError key => KeyError key
  end.

Notation "x <- c ;; k" := (bind c (fun x => k))
  (at level 61, c at next level, right associativity).

Fixpoint mapM {A B : Type} (f : A -> exc B) (l : list A) : exc (list B) :=
  match l with
  | [] => Ok []
  | a :: l' => b <- f a ;; bs <- mapM f l' ;; Ok (b :: bs)
  end.

(* ================================================================== *)
(** ** Numbers *)

Inductive float64 : Type :=
| Fin (q : Q)
| NaN.

Definition notna (v : float64) : bool :=
  match v with Fin _ => true | NaN => false end.

Definition Qlt_bool (x y : Q) : bool := negb (Qle_bool y x).

(** Arithmetic propagates NaN; every comparison with NaN is false. *)
Definition fadd (a b : float64) : float64 :=
  match a, b with Fin x, Fin y => Fin (x + y) | _, _ => NaN end.
Definition fsub (a b : float64) : float64 :=
  match a, b with Fin x, Fin y => Fin (x - y) | _, _ => NaN end.
Definition fmul (a b : float64) : float64 :=
  match a, b with Fin x, Fin y => Fin (x * y) | _, _ => NaN end.
Definition flt (a b : float64) : bool :=
  match a, b with Fin x, Fin y => Qlt_bool x y | _, _ => false end.
Definition fgt (a b : float64) : bool := flt b a.

(* ================================================================== *)
(** ** Generic list helpers *)

Fixpoint map2 {A B C : Type} (f : A -> B -> C) (l : list A) (m : list B)
  : list C :=
  match l, m with
  | a :: l', b :: m' => f a b :: map2 f l' m'
  | _, _ => []
  end.

(** [unique]: the distinct elements in order of first appearance (the
    hash-table pass of pandas: an element is emitted when it is not yet
    among those seen). *)
Fixpoint unique_from {A : Type} (eqb : A -> A -> bool) (seen l : list A)
  : list A :=
  match l with
  | [] => []
  | a :: l' =>
      if existsb (eqb a) seen then unique_from eqb seen l'
      else a :: unique_from eqb (a :: seen) l'
  end.

Definition unique {A : Type} (eqb : A -> A -> bool) (l : list A) : list A :=
  unique_from eqb [] l.

(** Boolean indexing: the rows whose mask entry is [true]. *)
Fixpoint boolean_index {A : Type} (rows : list A) (mask : list bool)
  : list A :=
  match rows, mask with
  | r :: rows', b :: mask' =>
      if b then r :: boolean_index rows' mask' else boolean_index rows' mask'
  | _, _ => []
  end.

Fixpoint insert_sorted (a : Q) (l : list Q) : list Q :=
  match l with
  | [] => [a]
  | b :: l' => if Qle_bool a b then a :: l else b :: insert_sorted a l'
  end.

Definition sortQ (l : list Q) : list Q := fold_right insert_sorted [] l.

Definition Qsum (l : list Q) : Q := fold_right Qplus 0 l.

(* ================================================================== *)
(** ** Data frames *)

(** A numeric frame: column labels and rows of cells, a row holding one
    cell per column. *)
Record DataFrame : Type := {
  columns : list string;
  values : list (list float64)
}.

Definition wf_frame (df : DataFrame) : Prop :=
  Forall (fun r => length r = length (columns df)) (values df).

Definition shape0 (df : DataFrame) : nat := length (values df).
Definition shape1 (df : DataFrame) : nat := length (columns df).

(** [df.empty]: some axis has length 0. *)
Definition empty (df : DataFrame) : bool :=
  (shape0 df =? 0)%nat || (shape1 df =? 0)%nat.

Fixpoint get_loc (cols : list string) (name : string) : option nat :=
  match cols with
  | [] => None
  | c :: cols' =>
      if String.eqb c name then Some 0%nat
      else option_map S (get_loc cols' name)
  end.

Definition column (j : nat) (df : DataFrame) : list float64 :=
  map (fun r => nth j r NaN) (values df).

(** [df[fields]]: the sub-frame of the listed columns, in the order of
    the list; a label that is not a column raises [KeyError]. *)
Definition getitem (df : DataFrame) (fields : list string) : exc DataFrame :=
  idxs <- mapM (fun f => match get_loc (columns df) f with
                         | Some i => Ok i
                         | None => KeyError f
                         end) fields ;;
  Ok {| columns := fields;
        values := map (fun r => map (fun i => nth i r NaN) idxs) (values df) |}.

(** [dropna()]: the rows without a missing cell. *)
Definition dropna (df : DataFrame) : DataFrame :=
  {| columns := columns df;
     values := filter (forallb notna) (values df) |}.

(* ================================================================== *)
(** ** Group Resolver ([correlation_module.get_fields_for_group]) *)

(** One row of the attribute description table: its group label (column
    ['Nhóm chỉ số']) and its field label (column ['field']). *)
Record AttrRow : Type := {
  group : string;
  field : string
}.

Definition AttrTable : Type := list AttrRow.

Definition get_fields_for_group (attribute_description_df : AttrTable)
  (group_name : string) : list string :=
  unique String.eqb
    (map field
       (filter (fun r => String.eqb (group r) group_name)
          attribute_description_df)).

(* ================================================================== *)
(** ** Quantiles ([DataFrame.quantile], numpy's linear method) *)

Definition finite_values (col : list float64) : list Q :=
  flat_map (fun v => match v with Fin q => [q] | NaN => [] end) col.

(** numpy's [_lerp]: [a + (b - a) * t], computed from the right end when
    [t >= 0.5]. *)
Definition lerp (a b t : Q) : Q :=
  let diff_b_a := b - a in
  if Qle_bool (1#2) t then b - diff_b_a * (1 - t) else a + diff_b_a * t.

(** The linear-method quantile of a non-empty array: the virtual index
    [(n-1)*q], its two neighbours in the sorted array (both the last
    element when the virtual index is not below [n-1]), and their
    interpolation by the fractional part. *)
Definition percentile_linear (arr : list Q) (q : Q) : Q :=
  let s := sortQ arr in
  let n := length s in
  let virtual_index := inject_Z (Z.of_nat n - 1) * q in
  let above := Qle_bool (inject_Z (Z.of_nat n - 1)) virtual_index in
  let previous_index :=
    if above then (n - 1)%nat else Z.to_nat (Qfloor virtual_index) in
  let next_index :=
    if above then (n - 1)%nat else Z.to_nat (Qfloor virtual_index + 1) in
  let gamma := virtual_index - inject_Z (Qfloor virtual_index) in
  lerp (nth previous_index s 0) (nth next_index s 0) gamma.

(** Quantile of one column: missing cells are skipped, a column without
    a value gives NaN. *)
Definition column_quantile (col : list float64) (q : Q) : float64 :=
  match finite_values col with
  | [] => NaN
  | arr => Fin (percentile_linear arr q)
  end.

(** [x.quantile(q)]: a Series with one entry per column of [x]. *)
Definition quantile (x : DataFrame) (q : Q) : list float64 :=
  map (fun j => column_quantile (column j x) q) (seq 0 (shape1 x)).

(* ================================================================== *)
(** ** Outlier removal (lines 28-32 of [calculate_correlation_matrix]) *)

Definition series_sub (a b : list float64) : list float64 := map2 fsub a b.
Definition series_add (a b : list float64) : list float64 := map2 fadd a b.
Definition series_scale (c : Q) (a : list float64) : list float64 :=
  map (fmul (Fin c)) a.

(** [x < s] and [x > s], the Series aligned on the columns of [x]. *)
Definition frame_lt (x : DataFrame) (s : list float64) : list (list bool) :=
  map (fun r => map2 flt r s) (values x).
Definition frame_gt (x : DataFrame) (s : list float64) : list (list bool) :=
  map (fun r => map2 fgt r s) (values x).
Definition frame_or (m1 m2 : list (list bool)) : list (list bool) :=
  map2 (map2 orb) m1 m2.
Definition any_axis1 (m : list (list bool)) : list bool :=
  map (existsb (fun b => b)) m.
Definition invert (m : list bool) : list bool := map negb m.

(** [x[~((x < lower) | (x > upper)).any(axis=1)]] *)
Definition fence_filter (lower upper : list float64) (x : DataFrame)
  : DataFrame :=
  {| columns := columns x;
     values :=
       boolean_index (values x)
         (invert (any_axis1 (frame_or (frame_lt x lower)
                                      (frame_gt x upper)))) |}.

Definition remove_outliers (x : DataFrame) : DataFrame :=
  let Q1 := quantile x (1#4) in
  let Q3 := quantile x (3#4) in
  let IQR := series_sub Q3 Q1 in
  fence_filter (series_sub Q1 (series_scale (3#2) IQR))
               (series_add Q3 (series_scale (3#2) IQR)) x.

(** The two fences of [remove_outliers], named for the statements. *)
Definition lower_fence (x : DataFrame) : list float64 :=
  series_sub (quantile x (1#4))
    (series_scale (3#2) (series_sub (quantile x (3#4)) (quantile x (1#4)))).

Definition upper_fence (x : DataFrame) : list float64 :=
  series_add (quantile x (3#4))
    (series_scale (3#2) (series_sub (quantile x (3#4)) (quantile x (1#4)))).

(* ================================================================== *)
(** ** Correlation Engine and request handler *)

(** A cell of the serialized matrix: Python's [None] or a float. *)
Inductive pyval : Type :=
| PyNone
| PyFloat (f : float64).

Record CorrResult : Type := {
  matrix : list (list pyval);
  headers : list string
}.

(** A Python dict with string keys, in insertion order. *)
Definition dict (V : Type) : Type := list (string * V).

Fixpoint dict_set {V : Type} (k : string) (v : V) (d : dict V) : dict V :=
  match d with
  | [] => [(k, v)]
  | (k', v') :: d' =>
      if String.eqb k' k then (k', v) :: d' else (k', v') :: dict_set k v d'
  end.

Fixpoint dict_get {V : Type} (k : string) (d : dict V) : option V :=
  match d with
  | [] => None
  | (k', v') :: d' => if String.eqb k' k then Some v' else dict_get k d'
  end.

Record SectorEntry : Type := {
  ten_nganh : Q;
  group_correlation_matrices : dict CorrResult
}.

Inductive Response : Type :=
| BadRequest (error : string)
| Json (results : list SectorEntry).

Definition pairwise_complete (cx cy : list float64) : list (Q * Q) :=
  flat_map (fun p => match p with
                     | (Fin a, Fin b) => [(a, b)]
                     | _ => []
                     end) (combine cx cy).

Definition mean (l : list Q) : Q :=
  Qsum l / inject_Z (Z.of_nat (length l)).

Definition clip (val : Q) : Q :=
  if Qlt_bool 1 val then 1
  else if Qlt_bool val (-(1)) then -(1) else val.

Definition sector_column : string := "sector_unique_id".

Section Engine.

(** The square root of the numeric model. *)
Variable sqrt : Q -> Q.

(** One cell of [nancorr]: Pearson's coefficient over the rows where
    both columns hold a value; NaN below [min_periods] observations or
    when the divisor is zero. *)
Definition nancorr_cell (minp : nat) (cx cy : list float64) : float64 :=
  let obs := pairwise_complete cx cy in
  let nobs := length obs in
  if (nobs <? minp)%nat then NaN
  else
    let meanx := mean (map fst obs) in
    let meany := mean (map snd obs) in
    let ssqdm_x := Qsum (map (fun p => (fst p - meanx) * (fst p - meanx)) obs) in
    let ssqdm_y := Qsum (map (fun p => (snd p - meany) * (snd p - meany)) obs) in
    let covxy := Qsum (map (fun p => (fst p - meanx) * (snd p - meany)) obs) in
    let divisor := sqrt (ssqdm_x * ssqdm_y) in
    if negb (Qeq_bool divisor 0) then Fin (clip (covxy / divisor)) else NaN.

(** [x.corr()] (Pearson, [min_periods = 1]): the cell of columns [xi]
    and [yi <= xi] is computed once and stored at [xi, yi] and [yi, xi];
    the frame is labelled by the columns of [x]. *)
Definition corr (x : DataFrame) : DataFrame :=
  let K := shape1 x in
  {| columns := columns x;
     values :=
       map (fun i =>
              map (fun j =>
                     nancorr_cell 1 (column (Nat.max i j) x)
                                    (column (Nat.min i j) x))
                  (seq 0 K))
           (seq 0 K) |}.

(** [.replace(np.nan, None).values.tolist()] *)
Definition nan_to_none (v : float64) : pyval :=
  match v with
  | NaN => PyNone
  | Fin q => PyFloat (Fin q)
  end.

Definition replace_nan_none (m : DataFrame) : list (list pyval) :=
  map (map nan_to_none) (values m).

Definition calculate_correlation_matrix (df : DataFrame)
  (fields : list string) : exc (option CorrResult) :=
  sel <- getitem df fields ;;
  let x := dropna sel in
  if (shape0 x <? 2)%nat || (shape1 x <? 2)%nat then Ok None
  else
    let x_cleaned := remove_outliers x in
    if empty x_cleaned || (length (columns x_cleaned) <? 2)%nat then Ok None
    else
      let corr_matrix := corr x_cleaned in
      let corr_matrix_list := replace_nan_none corr_matrix in
      let headers := columns corr_matrix in
      Ok (Some {| matrix := corr_matrix_list; headers := headers |}).

(** [indicator_groups], computed once when the module is loaded. *)
Definition indicator_groups (attribute_description_df : AttrTable)
  : list string :=
  unique String.eqb (map group attribute_description_df).

Definition existing_fields (fields : list string) (industry_df : DataFrame)
  : list string :=
  filter (fun f => existsb (String.eqb f) (columns industry_df)) fields.

(** The inner loop of the handler, over the indicator groups. *)
Fixpoint group_loop (attribute_description_df : AttrTable)
  (industry_df : DataFrame) (groups : list string)
  (group_matrices : dict CorrResult) : exc (dict CorrResult) :=
  match groups with
  | [] => Ok group_matrices
  | group_name :: rest =>
      let fields := get_fields_for_group attribute_description_df group_name in
      let existing := existing_fields fields industry_df in
      if (length existing <? 2)%nat then
        group_loop attribute_description_df industry_df rest group_matrices
      else
        correlation_matrix <-
          calculate_correlation_matrix industry_df existing ;;
        match correlation_matrix with
        | Some m =>
            group_loop attribute_description_df industry_df rest
              (dict_set group_name m group_matrices)
        | None =>
            group_loop attribute_description_df industry_df rest group_matrices
        end
  end.

(** [input_df.groupby(key)]: one slice per distinct non-missing key, in
    ascending key order, each slice holding every column of the frame
    and the rows of that key in their original order. *)
Definition group_keys (df : DataFrame) (i : nat) : list Q :=
  sortQ (unique Qeq_bool (finite_values (column i df))).

Definition group_slice (df : DataFrame) (i : nat) (k : Q) : DataFrame :=
  {| columns := columns df;
     values := filter (fun r => match nth i r NaN with
                                | Fin v => Qeq_bool v k
                                | NaN => false
                                end) (values df) |}.

Definition groupby (df : DataFrame) (key : string)
  : exc (list (Q * DataFrame)) :=
  match get_loc (columns df) key with
  | None => KeyError key
  | Some i => Ok (map (fun k => (k, group_slice df i k)) (group_keys df i))
  end.

(** The outer loop of the handler, over the sectors. *)
Fixpoint sector_loop (attribute_description_df : AttrTable)
  (industries : list (Q * DataFrame)) (results : list SectorEntry)
  : exc (list SectorEntry) :=
  match industries with
  | [] => Ok results
  | (industry_name, industry_df) :: rest =>
      group_matrices <-
        group_loop attribute_description_df industry_df
          (indicator_groups attribute_description_df) [] ;;
      match group_matrices with
      | [] => sector_loop attribute_description_df rest results
      | _ =>
          sector_loop attribute_description_df rest
            (results ++ [ {| ten_nganh := industry_name;
                             group_correlation_matrices := group_matrices |} ])
      end
  end.

(** [get_correlation_api], from the parsed [input_df] on. *)
Definition get_correlation_api (attribute_description_df : AttrTable)
  (input_df : DataFrame) : exc Response :=
  if negb (existsb (String.eqb sector_column) (columns input_df)) then
    Ok (BadRequest "CSV must contain a 'sector_unique_id' column.")
  else
    industries <- groupby input_df sector_column ;;
    results <- sector_loop attribute_description_df industries [] ;;
    Ok (Json results).

End Engine.

(** A square root on the rationals that is exact on squares: the root
    of the reduced fraction [n/d] is taken as [floor(sqrt(n*d)) / d]. *)
Definition Qsqrt (q : Q) : Q :=
  let r := Qred q in
  Z.sqrt (Qnum r * Zpos (Qden r)) # Qden r.

(* ================================================================== *)
(** ** Definitions used by the statements *)

(** The row test that the mask of [fence_filter] amounts to. *)
Definition keep_row (lower upper : list float64) (r : list float64) : bool :=
  negb (existsb (fun b => b) (map2 orb (map2 flt r lower) (map2 fgt r upper))).

Definition frame_of_Z (cols : list string) (rows : list (list Z))
  : DataFrame :=
  {| columns := cols;
     values := map (map (fun z => Fin (inject_Z z))) rows |}.

(** C5 as the specification states it: a second outlier removal, with
    its fences recomputed, removes no further row. *)
Definition removal_idempotent (x : DataFrame) : Prop :=
  values (remove_outliers (remove_outliers x)) = values (remove_outliers x).

(** A complete-case slice on which a second removal removes a row. *)
Definition shrinking_frame : DataFrame :=
  frame_of_Z ["A"; "B"]%string
    [[0; 0]; [0; 0]; [0; 0]; [1; 1]; [100; 100]]%Z.

(** The scenario of the specification: [A = 1,2,3,4,100] and
    [B = 2,4,6,8,200]. *)
Definition scenario_frame : DataFrame :=
  frame_of_Z ["A"; "B"]%string
    [[1; 2]; [2; 4]; [3; 6]; [4; 8]; [100; 200]]%Z.

(** What [calculate_correlation_matrix] returns once [df[fields]] has
    succeeded with [sel] (lemma [calculate_eq]). *)
Definition engine_result (sqrt : Q -> Q) (fields : list string) (sel : DataFrame)
  : option CorrResult :=
  if (shape0 (dropna sel) <? 2)%nat || (length fields <? 2)%nat then None
  else match values (remove_outliers (dropna sel)) with
       | [] => None
       | _ =>
           Some {| matrix :=
                     replace_nan_none
                       (corr sqrt (remove_outliers (dropna sel)));
                   headers := fields |}
       end.

(** Number of complete-case rows of the selection [df[fields]]. *)
Definition complete_rows (df : DataFrame) (fields : list string) : nat :=
  match getitem df fields with
  | Ok sel => shape0 (dropna sel)
  | KeyError _ => 0%nat
  end.

(** The fields that C3 calls usable: columns that are neither entirely
    missing nor constant. *)
Definition all_missing (c : list float64) : bool :=
  forallb (fun v => negb (notna v)) c.

Definition all_constant (c : list float64) : bool :=
  match finite_values c with
  | [] => true
  | v :: vs => forallb (Qeq_bool v) vs
  end.

Definition usable_fields (x : DataFrame) : list nat :=
  filter (fun j => negb (all_missing (column j x))
                   && negb (all_constant (column j x)))
         (seq 0 (shape1 x)).

(** C3 as the specification states it. *)
Definition post_cleaning_claim (sqrt : Q -> Q) (df : DataFrame)
  (fields : list string) : Prop :=
  forall sel, getitem df fields = Ok sel ->
    (2 <= shape0 (dropna sel))%nat -> (2 <= length fields)%nat ->
    (calculate_correlation_matrix sqrt df fields = Ok None <->
     values (remove_outliers (dropna sel)) = [] \/
     (length (usable_fields (remove_outliers (dropna sel))) < 2)%nat).

(** Two rows, column [A] constant. *)
Definition constant_frame : DataFrame :=
  frame_of_Z ["A"; "B"]%string [[1; 1]; [1; 2]]%Z.

(** A sector with a single row, and a table with one group of two
    fields. *)
Definition one_row_frame : DataFrame :=
  frame_of_Z ["sector_unique_id"; "A"; "B"]%string [[7; 1; 2]]%Z.

Definition two_field_table : AttrTable :=
  [ {| group := "G"; field := "A" |}; {| group := "G"; field := "B" |} ]%string.

(** Linear-interpolation quantile as the specification words it: with
    [h = (n-1)*p] the position in the sorted values, the value at
    [floor h] plus the fractional part of [h] times the step to the next
    value. *)
Definition linear_quantile (arr : list Q) (p : Q) : Q :=
  let s := sortQ arr in
  let h := inject_Z (Z.of_nat (length s) - 1) * p in
  let lo := Z.to_nat (Qfloor h) in
  nth lo s 0 + (h - inject_Z (Qfloor h)) * (nth (S lo) s 0 - nth lo s 0).

(** The Tukey fences of a column of values. *)
Definition tukey_lower (c : list Q) : Q :=
  let Q1 := linear_quantile c (1#4) in
  let Q3 := linear_quantile c (3#4) in
  Q1 - (3#2) * (Q3 - Q1).

Definition tukey_upper (c : list Q) : Q :=
  let Q1 := linear_quantile c (1#4) in
  let Q3 := linear_quantile c (3#4) in
  Q3 + (3#2) * (Q3 - Q1).

(** Row [r] is an outlier of [x]: on some column its value lies strictly
    outside the fences of that column of [x]. *)
Definition outlier_row (x : DataFrame) (r : list float64) : Prop :=
  exists j v, (j < shape1 x)%nat /\ nth_error r j = Some (Fin v) /\
    (v < tukey_lower (finite_values (column j x)) \/
     tukey_upper (finite_values (column j x)) < v).

Definition complete (x : DataFrame) : Prop :=
  Forall (fun r => forallb notna r = true) (values x).

(** One entry of the Series [lower_fence] and [upper_fence]. *)
Definition lower_at (x : DataFrame) (j : nat) : float64 :=
  fsub (column_quantile (column j x) (1#4))
       (fmul (Fin (3#2))
          (fsub (column_quantile (column j x) (3#4))
                (column_quantile (column j x) (1#4)))).

Definition upper_at (x : DataFrame) (j : nat) : float64 :=
  fadd (column_quantile (column j x) (3#4))
       (fmul (Fin (3#2))
          (fsub (column_quantile (column j x) (3#4))
                (column_quantile (column j x) (1#4)))).

(** Sum of the squared deviations from the mean: zero exactly for a
    column of zero variance. *)
Definition sum_sq_dev (vals : list Q) : Q :=
  Qsum (map (fun v => (v - mean vals) * (v - mean vals)) vals).

(** Five complete rows of which the first four are each an outlier on
    one field: only the last row survives the removal. *)
Definition single_survivor_frame : DataFrame :=
  frame_of_Z ["A"; "B"; "C"; "D"]%string
    [[100; 0; 0; 0]; [0; 100; 0; 0]; [0; 0; 100; 0]; [0; 0; 0; 100];
     [0; 0; 0; 0]]%Z.

(** The mapping the handler builds for the sector of key [k], and
    whether it holds a result. *)
Definition sector_matrices (sqrt : Q -> Q)
  (attribute_description_df : AttrTable) (df : DataFrame) (i : nat) (k : Q)
  : dict CorrResult :=
  match group_loop sqrt attribute_description_df (group_slice df i k)
          (indicator_groups attribute_description_df) [] with
  | Ok d => d
  | KeyError _ => []
  end.

Definition sector_has_result (sqrt : Q -> Q)
  (attribute_description_df : AttrTable) (df : DataFrame) (i : nat) (k : Q)
  : bool :=
  match sector_matrices sqrt attribute_description_df df i k with
  | [] => false
  | _ :: _ => true
  end.

Definition sector_entry (sqrt : Q -> Q)
  (attribute_description_df : AttrTable) (df : DataFrame) (i : nat) (k : Q)
  : SectorEntry :=
  {| ten_nganh := k;
     group_correlation_matrices :=
       sector_matrices sqrt attribute_description_df df i k |}.

(** C1 as the specification states it: the identifiers of the response
    entries are exactly the distinct values of the sector column. *)
Definition covers_all_sectors (sqrt : Q -> Q)
  (attribute_description_df : AttrTable) (input_df : DataFrame) : Prop :=
  forall i, get_loc (columns input_df) sector_column = Some i ->
    exists results,
      get_correlation_api sqrt attribute_description_df input_df
      = Ok (Json results) /\
      forall k, InA Qeq k (map ten_nganh results) <->
                InA Qeq k (finite_values (column i input_df)).

(** Two sectors: sector 3 has one row, sector 5 has three. *)
Definition two_sector_frame : DataFrame :=
  frame_of_Z ["sector_unique_id"; "A"; "B"]%string
    [[5; 1; 2]; [3; 1; 1]; [5; 2; 4]; [5; 3; 6]]%Z.

(** The fields of a group that are columns of the sector's slice, and
    the condition of C4 on them. *)
Definition group_existing (attribute_description_df : AttrTable)
  (industry_df : DataFrame) (group_name : string) : list string :=
  existing_fields
    (get_fields_for_group attribute_description_df group_name) industry_df.

Definition group_too_few (attribute_description_df : AttrTable)
  (industry_df : DataFrame) (group_name : string) : Prop :=
  (length (group_existing attribute_description_df industry_df group_name)
   < 2)%nat \/
  (complete_rows industry_df
     (group_existing attribute_description_df industry_df group_name)
   < 2)%nat.

(* ================================================================== *)
(** ** Further definitions: the loop body and the upload checks *)

(** What one turn of the handler's inner loop obtains for a group: the
    engine's result on the group's existing fields, or nothing when
    fewer than 2 of them exist. *)
Definition group_result (sqrt : Q -> Q) (attribute_description_df : AttrTable)
  (industry_df : DataFrame) (group_name : string) : option CorrResult :=
  let existing :=
    group_existing attribute_description_df industry_df group_name in
  if (length existing <? 2)%nat then None
  else match calculate_correlation_matrix sqrt industry_df existing with
       | Ok r => r
       | KeyError _ => None
       end.

Definition group_items (sqrt : Q -> Q) (attribute_description_df : AttrTable)
  (industry_df : DataFrame) (groups : list string) : dict CorrResult :=
  flat_map (fun g =>
              match group_result sqrt attribute_description_df industry_df g
              with
              | Some m => [(g, m)]
              | None => []
              end) groups.

Definition has_group_result (sqrt : Q -> Q)
  (attribute_description_df : AttrTable) (industry_df : DataFrame)
  (group_name : string) : bool :=
  match group_result sqrt attribute_description_df industry_df group_name with
  | Some _ => true
  | None => false
  end.

(** A table with two groups, the second with a single field. *)
Definition two_group_table : AttrTable :=
  [ {| group := "G"; field := "A" |}; {| group := "H"; field := "C" |};
    {| group := "G"; field := "B" |}; {| group := "G"; field := "A" |} ]%string.

(** [str.endswith]. *)
Definition endswith (s suffix : string) : bool :=
  let n := String.length s in
  let m := String.length suffix in
  (m <=? n)%nat && String.eqb (substring (n - m) m s) suffix.

(** An uploaded file (its name and its bytes) and the part of a request
    the handler reads: the uploaded files by form field. *)
Record FileStorage : Type := {
  filename : string;
  stream : string
}.

Record Request : Type := {
  files : dict FileStorage
}.

(** A [FileStorage] is true when its name is not empty. *)
Definition file_bool (file : FileStorage) : bool :=
  negb (String.eqb (filename file) "").

Section Upload.

Variable sqrt : Q -> Q.

(** [pd.read_csv(io.StringIO(file.read().decode('utf-8')))]: the parsed
    frame, or the text of the exception that decoding or parsing
    raised. *)
Variable read_csv : string -> string + DataFrame.

(** [get_correlation_api], from the request on (lines 20-37), followed
    by the processing of the parsed frame. *)
Definition get_correlation_api_request
  (attribute_description_df : AttrTable) (request : Request)
  : exc Response :=
  match dict_get "file" (files request) with
  | None => Ok (BadRequest "No file part in the request.")
  | Some file =>
      if String.eqb (filename file) "" then
        Ok (BadRequest "No selected file.")
      else if negb (file_bool file)
              || negb (endswith (filename file) ".csv") then
        Ok (BadRequest "Invalid file type. Please upload a CSV file.")
      else
        match read_csv (stream file) with
        | inl e =>
            Ok (BadRequest ("Failed to read or parse CSV file: " ++ e))
        | inr input_df =>
            get_correlation_api sqrt attribute_description_df input_df
        end
  end.

End Upload.

(** The cell of row [r] of [df] under the column label [f]. *)
Definition cell (df : DataFrame) (r : list float64) (f : string) : float64 :=
  match get_loc (columns df) f with
  | Some i => nth i r NaN
  | None => NaN
  end.

(* ================================================================== *)
(** ** Lists: unique, boolean indexing, sorting *)

Section Unique.

Context {A : Type} (eqb : A -> A -> bool) (R : A -> A -> Prop).
Hypothesis R_equiv : Equivalence R.
Hypothesis eqb_R : forall a b, eqb a b = true <-> R a b.

Lemma existsb_eqb_InA (a : A) (l : list A) :
  existsb (eqb a) l = true <-> InA R a l.
Proof.
  rewrite existsb_exists, InA_alt.
  split; intros [y [H1 H2]]; exists y.
  - split; [apply eqb_R|]; assumption.
  - split; [|apply eqb_R]; assumption.
Qed.

Lemma unique_from_InA (seen l : list A) (a : A) :
  InA R a (unique_from eqb seen l) <-> InA R a l /\ ~ InA R a seen.
Proof.
  revert seen; induction l as [|b l IH]; intros seen; simpl.
  - rewrite InA_nil; tauto.
  - destruct (existsb (eqb b) seen) eqn:E.
    + apply existsb_eqb_InA in E.
      rewrite IH, InA_cons. split; intros [H1 H2]; split; auto.
      destruct H1 as [H1|H1]; auto.
      exfalso; apply H2. apply InA_eqA with b; auto. symmetry; auto.
    + assert (Hb : ~ InA R b seen).
      { intro H; apply existsb_eqb_InA in H; congruence. }
      rewrite !InA_cons, IH, InA_cons. split.
      * intros [H|[H1 H2]].
        -- split; auto. intro Hs; apply Hb. apply InA_eqA with a; auto.
        -- split; auto.
      * intros [[H1|H1] H2]; auto.
        destruct (eqb a b) eqn:Eab.
        -- left; apply eqb_R; auto.
        -- right; split; auto. intros [H|H]; auto.
           apply eqb_R in H; congruence.
Qed.

Lemma unique_from_NoDupA (seen l : list A) :
  NoDupA R (unique_from eqb seen l).
Proof.
  revert seen; induction l as [|b l IH]; intros seen; simpl.
  - constructor.
  - destruct (existsb (eqb b) seen); auto.
    constructor; auto.
    rewrite unique_from_InA. intros [_ H]; apply H. left; reflexivity.
Qed.

End Unique.

Lemma InA_eq_In {A : Type} (a : A) (l : list A) : InA eq a l <-> In a l.
Proof.
  rewrite InA_alt. split.
  - intros [y [-> H]]; exact H.
  - intro H; exists a; auto.
Qed.

Lemma NoDupA_eq_NoDup {A : Type} (l : list A) : NoDupA eq l -> NoDup l.
Proof.
  induction 1 as [|x l Hx _ IH]; constructor; auto.
  intro H; apply Hx, InA_eq_In, H.
Qed.

Lemma unique_In (l : list string) (a : string) :
  In a (unique String.eqb l) <-> In a l.
Proof.
  unfold unique. rewrite <- !InA_eq_In.
  rewrite (unique_from_InA String.eqb eq _ String.eqb_eq).
  rewrite InA_nil; tauto.
Qed.

Lemma unique_NoDup (l : list string) : NoDup (unique String.eqb l).
Proof.
  apply NoDupA_eq_NoDup.
  apply (unique_from_NoDupA String.eqb eq _ String.eqb_eq).
Qed.

Lemma boolean_index_map {A : Type} (f : A -> bool) (l : list A) :
  boolean_index l (map f l) = filter f l.
Proof.
  induction l as [|a l IH]; simpl; auto.
  destruct (f a); rewrite IH; reflexivity.
Qed.

Lemma map2_map_same {A B C D : Type} (h : B -> C -> D) (f : A -> B)
  (g : A -> C) (l : list A) :
  map2 h (map f l) (map g l) = map (fun a => h (f a) (g a)) l.
Proof.
  induction l as [|a l IH]; simpl; auto. rewrite IH; reflexivity.
Qed.

Lemma filter_idem {A : Type} (f : A -> bool) (l : list A) :
  filter f (filter f l) = filter f l.
Proof.
  induction l as [|a l IH]; simpl; auto.
  destruct (f a) eqn:E; simpl; rewrite ?E, IH; reflexivity.
Qed.

(* ================================================================== *)
(** ** Group Resolver *)

Lemma get_fields_for_group_nodup (attribute_description_df : AttrTable)
  (group_name : string) :
  NoDup (get_fields_for_group attribute_description_df group_name).
Proof. apply unique_NoDup. Qed.

(** C8. The Group Resolver is a function of the table and the group
    name alone (it reads the table and changes nothing); its result has
    no duplicate, holds exactly the field labels of the rows whose group
    label is the requested one, and is empty when no row carries that
    group label. *)
Theorem get_fields_for_group_spec (attribute_description_df : AttrTable)
  (group_name : string) :
  NoDup (get_fields_for_group attribute_description_df group_name) /\
  (forall f,
      In f (get_fields_for_group attribute_description_df group_name) <->
      exists r, In r attribute_description_df /\
                group r = group_name /\ field r = f) /\
  ((forall r, In r attribute_description_df -> group r <> group_name) ->
   get_fields_for_group attribute_description_df group_name = []).
Proof.
  unfold get_fields_for_group. split; [apply unique_NoDup|].
  assert (Hin : forall f,
    In f (unique String.eqb (map field
            (filter (fun r => String.eqb (group r) group_name)
               attribute_description_df))) <->
    exists r, In r attribute_description_df /\
              group r = group_name /\ field r = f).
  { intro f. rewrite unique_In, in_map_iff. split.
    - intros [r [Hf Hr]]. apply filter_In in Hr. destruct Hr as [Hr Hg].
      exists r. repeat split; auto. apply String.eqb_eq; exact Hg.
    - intros [r [Hr [Hg Hf]]]. exists r. split; auto.
      apply filter_In. split; auto. apply String.eqb_eq; exact Hg. }
  split; [exact Hin|].
  intro Habs.
  destruct (unique String.eqb _) as [|f l] eqn:E; auto.
  exfalso.
  destruct (proj1 (Hin f)) as [r [Hr [Hg _]]].
  - left; reflexivity.
  - exact (Habs r Hr Hg).
Qed.

(* ================================================================== *)
(** ** Outlier removal *)

Lemma fence_filter_values (lower upper : list float64) (x : DataFrame) :
  values (fence_filter lower upper x) =
  filter (keep_row lower upper) (values x).
Proof.
  unfold fence_filter, frame_or, frame_lt, frame_gt, any_axis1, invert; simpl.
  rewrite map2_map_same, !map_map.
  apply boolean_index_map.
Qed.

Lemma remove_outliers_fences (x : DataFrame) :
  remove_outliers x = fence_filter (lower_fence x) (upper_fence x) x.
Proof. reflexivity. Qed.

(** The scenario of the specification: the row of 100 and 200 is
    dropped, the four others are kept. *)
Example scenario_drops_outlier :
  values (remove_outliers scenario_frame) =
  values (frame_of_Z ["A"; "B"]%string [[1; 2]; [2; 4]; [3; 6]; [4; 8]]%Z).
Proof. vm_compute. reflexivity. Qed.

(** C5 (as stated) fails: on [shrinking_frame] the first removal drops
    the row of 100 and leaves 0,0,0,1; the fences recomputed on these
    four rows are [-0.375, 0.625] and drop the row of 1. *)
Lemma removal_not_idempotent : ~ removal_idempotent shrinking_frame.
Proof.
  unfold removal_idempotent. intro H.
  apply (f_equal (@length _)) in H. vm_compute in H. discriminate H.
Qed.

(** C5 (amended). Filtering the cleaned rows again with the fences that
    were computed once, from the rows before removal, removes no row. *)
Theorem fence_filter_idempotent (x : DataFrame) :
  fence_filter (lower_fence x) (upper_fence x) (remove_outliers x) =
  remove_outliers x.
Proof.
  rewrite remove_outliers_fences.
  set (lo := lower_fence x). set (hi := upper_fence x).
  assert (H : values (fence_filter lo hi (fence_filter lo hi x)) =
              values (fence_filter lo hi x)).
  { rewrite !fence_filter_values. apply filter_idem. }
  change (fence_filter lo hi (fence_filter lo hi x))
    with {| columns := columns x;
            values := values (fence_filter lo hi (fence_filter lo hi x)) |}.
  rewrite H. reflexivity.
Qed.

(* ================================================================== *)
(** ** The engine: which results it returns *)

Lemma mapM_length {A B : Type} (f : A -> exc B) (l : list A) (l' : list B) :
  mapM f l = Ok l' -> length l' = length l.
Proof.
  revert l'; induction l as [|a l IH]; simpl; intros l' H.
  - inversion H; reflexivity.
  - destruct (f a); simpl in H; [|discriminate].
    destruct (mapM f l); simpl in H; [|discriminate].
    inversion H; subst; simpl. f_equal. apply IH; reflexivity.
Qed.

Lemma getitem_Ok (df : DataFrame) (fields : list string) (sel : DataFrame) :
  getitem df fields = Ok sel -> columns sel = fields /\ wf_frame sel.
Proof.
  unfold getitem, bind. destruct (mapM _ fields) as [idxs|] eqn:E;
    [|discriminate].
  intro H; inversion H; subst; clear H. split; [reflexivity|].
  unfold wf_frame; simpl. apply Forall_forall. intros r Hr.
  apply in_map_iff in Hr. destruct Hr as [r0 [<- _]].
  rewrite length_map. apply (mapM_length _ _ _ E).
Qed.

Lemma getitem_present (df : DataFrame) (fields : list string) :
  (forall f, In f fields -> In f (columns df)) ->
  exists sel, getitem df fields = Ok sel.
Proof.
  intro Hin. unfold getitem.
  assert (H : exists idxs,
    mapM (fun f => match get_loc (columns df) f with
                   | Some i => Ok i
                   | None => KeyError f
                   end) fields = Ok idxs).
  { induction fields as [|f fields IH]; simpl.
    - eexists; reflexivity.
    - destruct IH as [idxs E]; [intros; apply Hin; right; assumption|].
      rewrite E.
      assert (Hf : exists i, get_loc (columns df) f = Some i).
      { assert (Hc : In f (columns df)) by (apply Hin; left; reflexivity).
        clear -Hc. induction (columns df) as [|c cols IHc]; simpl in *.
        - contradiction.
        - destruct (String.eqb c f) eqn:Ecf; [eexists; reflexivity|].
          destruct Hc as [->|Hc]; [rewrite String.eqb_refl in Ecf; discriminate|].
          destruct (IHc Hc) as [i ->]. eexists; reflexivity. }
      destruct Hf as [i ->]. simpl. eexists; reflexivity. }
  destruct H as [idxs ->]. simpl. eexists; reflexivity.
Qed.

Section EngineResults.

Variable sqrt : Q -> Q.

Lemma calculate_eq (df : DataFrame) (fields : list string) (sel : DataFrame) :
  getitem df fields = Ok sel ->
  calculate_correlation_matrix sqrt df fields =
  Ok (engine_result sqrt fields sel).
Proof.
  intro E. destruct (getitem_Ok _ _ _ E) as [Hc _].
  unfold calculate_correlation_matrix, engine_result. rewrite E.
  cbn [bind]. cbv zeta.
  assert (H1 : shape1 (dropna sel) = length fields)
    by (unfold shape1; rewrite <- Hc; reflexivity).
  assert (H2 : shape1 (remove_outliers (dropna sel)) = length fields)
    by exact H1.
  assert (H3 : columns (remove_outliers (dropna sel)) = fields) by exact Hc.
  assert (H4 : columns (corr sqrt (remove_outliers (dropna sel))) = fields)
    by exact Hc.
  rewrite H1, H4. unfold empty. rewrite H2, H3.
  destruct ((shape0 (dropna sel) <? 2)%nat || (length fields <? 2)%nat)
    eqn:G; [reflexivity|].
  apply orb_false_iff in G. destruct G as [_ G2]. rewrite G2.
  unfold shape0 at 1.
  destruct (values (remove_outliers (dropna sel))) eqn:V; simpl length.
  - reflexivity.
  - destruct (length fields) as [|[|n]]; [discriminate G2..|]. reflexivity.
Qed.

Lemma calculate_inv (df : DataFrame) (fields : list string)
  (r : option CorrResult) :
  calculate_correlation_matrix sqrt df fields = Ok r ->
  exists sel, getitem df fields = Ok sel /\ r = engine_result sqrt fields sel.
Proof.
  intro H. destruct (getitem df fields) as [sel|key] eqn:E.
  - exists sel. split; [reflexivity|].
    rewrite (calculate_eq _ _ _ E) in H. inversion H; reflexivity.
  - unfold calculate_correlation_matrix in H. rewrite E in H. discriminate H.
Qed.

End EngineResults.

Lemma replace_nan_none_cells (m : DataFrame) :
  Forall (Forall (fun c => c <> PyFloat NaN)) (replace_nan_none m).
Proof.
  unfold replace_nan_none. apply Forall_forall. intros row Hrow.
  apply in_map_iff in Hrow. destruct Hrow as [r0 [<- _]].
  apply Forall_forall. intros c Hc.
  apply in_map_iff in Hc. destruct Hc as [v [<- _]].
  destruct v; discriminate.
Qed.

(** C7. Every cell of a returned matrix is [None] or a number, never a
    NaN float. *)
Theorem matrix_has_no_nan (sqrt : Q -> Q) (df : DataFrame)
  (fields : list string) (res : CorrResult) :
  calculate_correlation_matrix sqrt df fields = Ok (Some res) ->
  Forall (Forall (fun c => c <> PyFloat NaN)) (matrix res).
Proof.
  intro H. apply calculate_inv in H. destruct H as [sel [_ H]].
  unfold engine_result in H.
  destruct (_ || _); [discriminate|].
  destruct (values _); [discriminate|].
  inversion H; subst; simpl. apply replace_nan_none_cells.
Qed.

Lemma matrix_has_no_nan_witness :
  exists res,
    calculate_correlation_matrix Qsqrt scenario_frame ["A"; "B"]%string =
    Ok (Some res) /\
    Forall (Forall (fun c => c <> PyFloat NaN)) (matrix res).
Proof.
  eexists. split.
  - vm_compute. reflexivity.
  - apply (matrix_has_no_nan Qsqrt scenario_frame ["A"; "B"]%string).
    vm_compute. reflexivity.
Defined.

(** C3 (as stated) fails: in [constant_frame] column [A] is constant, so
    one usable field remains, yet both rows survive the removal and the
    engine returns a 2x2 result. *)
Lemma constant_column_counts :
  ~ post_cleaning_claim Qsqrt constant_frame ["A"; "B"]%string.
Proof.
  intro H.
  assert (E : getitem constant_frame ["A"; "B"]%string = Ok constant_frame)
    by (vm_compute; reflexivity).
  destruct (H _ E) as [_ H2]; [vm_compute; lia..|].
  assert (N : calculate_correlation_matrix Qsqrt constant_frame
                ["A"; "B"]%string = Ok None).
  { apply H2. right. vm_compute. lia. }
  vm_compute in N. discriminate N.
Qed.

(** C3 (amended). Past the first gate, the engine returns absent exactly
    when the cleaned row set is empty.  The removal drops rows only, so
    every selected field, constant or not, still counts: a non-empty
    cleaned set gives a result over all the selected fields. *)
Theorem post_cleaning_gate (sqrt : Q -> Q) (df : DataFrame)
  (fields : list string) (sel : DataFrame) :
  getitem df fields = Ok sel ->
  (2 <= shape0 (dropna sel))%nat -> (2 <= length fields)%nat ->
  (calculate_correlation_matrix sqrt df fields = Ok None <->
   values (remove_outliers (dropna sel)) = []) /\
  (values (remove_outliers (dropna sel)) <> [] ->
   exists res, calculate_correlation_matrix sqrt df fields = Ok (Some res) /\
               headers res = fields).
Proof.
  intros E Hr Hf. rewrite (calculate_eq sqrt _ _ _ E).
  unfold engine_result.
  assert (G : (shape0 (dropna sel) <? 2)%nat || (length fields <? 2)%nat
              = false).
  { apply orb_false_iff. split; apply Nat.ltb_ge; assumption. }
  rewrite G.
  destruct (values (remove_outliers (dropna sel))) as [|r rows]; split.
  - tauto.
  - intro H; contradiction H; reflexivity.
  - split; intro H; discriminate H.
  - intros _. eexists. split; reflexivity.
Qed.

Lemma post_cleaning_gate_witness :
  (calculate_correlation_matrix Qsqrt constant_frame ["A"; "B"]%string
   = Ok None <->
   values (remove_outliers (dropna constant_frame)) = []) /\
  (values (remove_outliers (dropna constant_frame)) <> [] ->
   exists res,
     calculate_correlation_matrix Qsqrt constant_frame ["A"; "B"]%string
     = Ok (Some res) /\ headers res = ["A"; "B"]%string).
Proof.
  apply (post_cleaning_gate Qsqrt constant_frame ["A"; "B"]%string
           constant_frame).
  - vm_compute; reflexivity.
  - vm_compute; lia.
  - vm_compute; lia.
Defined.

(* ================================================================== *)
(** ** The handler's loop over the indicator groups *)

Lemma dict_get_set_other {V : Type} (k k' : string) (v : V) (d : dict V) :
  k <> k' -> dict_get k (dict_set k' v d) = dict_get k d.
Proof.
  intro Hne. induction d as [|[k0 v0] d IH]; simpl.
  - destruct (String.eqb k' k) eqn:E; auto.
    apply String.eqb_eq in E. congruence.
  - destruct (String.eqb k0 k') eqn:E0; simpl.
    + apply String.eqb_eq in E0. subst k0.
      destruct (String.eqb k' k) eqn:E; auto.
      apply String.eqb_eq in E. congruence.
    + rewrite IH. reflexivity.
Qed.

Lemma existing_fields_present (fields : list string) (df : DataFrame) :
  forall f, In f (existing_fields fields df) -> In f (columns df).
Proof.
  intros f Hf. apply filter_In in Hf. destruct Hf as [_ Hf].
  apply existsb_exists in Hf. destruct Hf as [c [Hc Hfc]].
  apply String.eqb_eq in Hfc. subst; assumption.
Qed.

Section GroupLoop.

Variable sqrt : Q -> Q.
Variable attribute_description_df : AttrTable.
Variable industry_df : DataFrame.

Local Abbreviation existing :=
  (group_existing attribute_description_df industry_df).
Local Abbreviation too_few := (group_too_few attribute_description_df industry_df).

Lemma engine_none_on_few (group_name : string) :
  too_few group_name ->
  calculate_correlation_matrix sqrt industry_df (existing group_name)
  = Ok None.
Proof.
  intro H.
  destruct (getitem_present industry_df (existing group_name)
              (existing_fields_present _ _)) as [sel E].
  rewrite (calculate_eq sqrt _ _ _ E). f_equal.
  unfold engine_result.
  assert (G : (shape0 (dropna sel) <? 2)%nat
              || (length (existing group_name) <? 2)%nat = true);
    [|rewrite G; reflexivity].
  apply orb_true_iff. destruct H as [H|H].
  - right. apply Nat.ltb_lt. exact H.
  - left. apply Nat.ltb_lt. unfold complete_rows in H.
    rewrite E in H. exact H.
Qed.

Lemma group_loop_spec (groups : list string) (acc : dict CorrResult) :
  exists d,
    group_loop sqrt attribute_description_df industry_df groups acc = Ok d /\
    forall g, too_few g -> dict_get g acc = None -> dict_get g d = None.
Proof.
  revert acc. induction groups as [|g0 rest IH]; intro acc; simpl.
  - exists acc. split; auto.
  - fold (existing g0).
    destruct (length (existing g0) <? 2)%nat eqn:L; [apply IH|].
    destruct (getitem_present industry_df (existing g0)
                (existing_fields_present _ _)) as [sel E].
    rewrite (calculate_eq sqrt _ _ _ E). cbn [bind].
    destruct (engine_result sqrt (existing g0) sel) as [m|] eqn:R;
      [|apply IH].
    destruct (IH (dict_set g0 m acc)) as [d [Hd Hnone]].
    exists d. split; [exact Hd|].
    intros g Hg Hacc. apply Hnone; [exact Hg|].
    destruct (String.eqb g g0) eqn:Eg.
    + apply String.eqb_eq in Eg. subst g0.
      pose proof (engine_none_on_few g Hg) as Hn.
      rewrite (calculate_eq sqrt _ _ _ E) in Hn.
      inversion Hn. congruence.
    + rewrite dict_get_set_other; [exact Hacc|].
      intro; subst. rewrite String.eqb_refl in Eg. discriminate.
Qed.

End GroupLoop.

(** C4. When fewer than 2 of the group's fields are columns of the
    sector's slice, or fewer than 2 rows of the slice are complete on
    those fields, the engine returns absent on them, the loop over the
    groups ends without an exception, and the sector's mapping holds no
    entry for the group. *)
Theorem absent_when_too_few (sqrt : Q -> Q)
  (attribute_description_df : AttrTable) (industry_df : DataFrame)
  (group_name : string) :
  let existing :=
    existing_fields
      (get_fields_for_group attribute_description_df group_name)
      industry_df in
  (length existing < 2)%nat \/
  (complete_rows industry_df existing < 2)%nat ->
  calculate_correlation_matrix sqrt industry_df existing = Ok None /\
  exists group_matrices,
    group_loop sqrt attribute_description_df industry_df
      (indicator_groups attribute_description_df) [] = Ok group_matrices /\
    dict_get group_name group_matrices = None.
Proof.
  intros existing H. split.
  - apply engine_none_on_few. exact H.
  - destruct (group_loop_spec sqrt attribute_description_df industry_df
                (indicator_groups attribute_description_df) [])
      as [d [Hd Hnone]].
    exists d. split; [exact Hd|]. apply Hnone; [exact H|reflexivity].
Qed.

Lemma absent_when_too_few_witness :
  calculate_correlation_matrix Qsqrt one_row_frame ["A"; "B"]%string
  = Ok None /\
  exists group_matrices,
    group_loop Qsqrt two_field_table one_row_frame ["G"%string] []
    = Ok group_matrices /\
    dict_get "G"%string group_matrices = None.
Proof.
  apply (absent_when_too_few Qsqrt two_field_table one_row_frame "G"%string).
  right. vm_compute. lia.
Defined.

(* ================================================================== *)
(** ** The Tukey fence rule *)

Lemma Qlt_bool_iff (x y : Q) : Qlt_bool x y = true <-> x < y.
Proof.
  unfold Qlt_bool. rewrite negb_true_iff. split.
  - intro H. apply Qnot_le_lt. intro Hle.
    apply Qle_bool_iff in Hle. congruence.
  - intro H. destruct (Qle_bool y x) eqn:E; auto.
    apply Qle_bool_iff in E. exfalso. exact (Qlt_not_le _ _ H E).
Qed.

Lemma lerp_eq (a b t : Q) : lerp a b t == a + t * (b - a).
Proof. unfold lerp. destruct (Qle_bool (1#2) t); ring. Qed.

Lemma length_insert_sorted (a : Q) (l : list Q) :
  length (insert_sorted a l) = S (length l).
Proof.
  induction l as [|b l IH]; simpl; auto.
  destruct (Qle_bool a b); simpl; auto.
Qed.

Lemma length_sortQ (l : list Q) : length (sortQ l) = length l.
Proof.
  induction l as [|a l IH]; simpl; auto.
  rewrite length_insert_sorted, IH. reflexivity.
Qed.

(** The numpy computation is the textbook linear interpolation. *)
Lemma percentile_linear_spec (arr : list Q) (q : Q) :
  arr <> [] -> 0 <= q -> q <= 1 ->
  percentile_linear arr q == linear_quantile arr q.
Proof.
  intros Hne Hq0 Hq1. unfold percentile_linear, linear_quantile.
  set (s := sortQ arr). set (n := length s).
  assert (Hn : (1 <= n)%nat).
  { unfold n, s. rewrite length_sortQ. destruct arr; [congruence|simpl; lia]. }
  set (n1 := inject_Z (Z.of_nat n - 1)).
  assert (Hn1 : 0 <= n1).
  { unfold n1. change 0 with (inject_Z 0). rewrite <- Zle_Qle. lia. }
  set (h := n1 * q).
  assert (Hh0 : 0 <= h) by (unfold h; apply Qmult_le_0_compat; assumption).
  assert (Hh1 : h <= n1).
  { unfold h. nra. }
  rewrite lerp_eq.
  destruct (Qle_bool n1 h) eqn:A.
  - apply Qle_bool_iff in A.
    assert (Hh : h == n1) by (apply Qle_antisym; assumption).
    assert (Hfl : Qfloor h = (Z.of_nat n - 1)%Z).
    { rewrite Hh. unfold n1. apply Qfloor_Z. }
    rewrite Hfl. fold n1.
    replace (Z.to_nat (Z.of_nat n - 1)) with (n - 1)%nat by lia.
    rewrite Hh. ring.
  - assert (Hfl : (0 <= Qfloor h)%Z).
    { change 0%Z with (Qfloor 0). apply Qfloor_resp_le. exact Hh0. }
    replace (Z.to_nat (Qfloor h + 1)) with (S (Z.to_nat (Qfloor h))) by lia.
    reflexivity.
Qed.

Lemma existsb_map2_nth {A : Type} (f g : A -> A -> bool) (d : A) :
  forall (r lo hi : list A) (n : nat),
    length r = n -> length lo = n -> length hi = n ->
    (existsb (fun b => b) (map2 orb (map2 f r lo) (map2 g r hi)) = true <->
     exists j, (j < n)%nat /\
       f (nth j r d) (nth j lo d) || g (nth j r d) (nth j hi d) = true).
Proof.
  induction r as [|a r IH]; intros lo hi n Hr Hlo Hhi.
  - simpl in Hr; subst n. simpl. split; [discriminate|].
    intros [j [Hj _]]; lia.
  - destruct lo as [|l lo]; [simpl in *; lia|].
    destruct hi as [|u hi]; [simpl in *; lia|].
    destruct n as [|n]; [simpl in *; lia|].
    simpl in Hr, Hlo, Hhi. simpl.
    rewrite orb_true_iff, (IH lo hi n) by lia. split.
    + intros [H|[j [Hj H]]].
      * exists 0%nat. split; [lia|exact H].
      * exists (S j). split; [lia|exact H].
    + intros [[|j] [Hj H]].
      * left; exact H.
      * right. exists j. split; [lia|exact H].
Qed.

Lemma nth_map_seq {A : Type} (f : nat -> A) (K j : nat) (d : A) :
  (j < K)%nat -> nth j (map f (seq 0 K)) d = f j.
Proof.
  intro Hj. rewrite (nth_indep _ d (f 0%nat)) by
    (rewrite length_map, length_seq; exact Hj).
  rewrite map_nth, seq_nth by exact Hj. reflexivity.
Qed.

Lemma lower_fence_map (x : DataFrame) :
  lower_fence x = map (lower_at x) (seq 0 (shape1 x)).
Proof.
  unfold lower_fence, series_sub, series_scale, quantile.
  rewrite map2_map_same, map_map, map2_map_same. reflexivity.
Qed.

Lemma upper_fence_map (x : DataFrame) :
  upper_fence x = map (upper_at x) (seq 0 (shape1 x)).
Proof.
  unfold upper_fence, series_add, series_sub, series_scale, quantile.
  rewrite map2_map_same, map_map, map2_map_same. reflexivity.
Qed.

Lemma finite_values_In (v : Q) (col : list float64) :
  In (Fin v) col -> In v (finite_values col).
Proof.
  intro H. unfold finite_values. apply in_flat_map.
  exists (Fin v). split; [exact H|left; reflexivity].
Qed.

Lemma dropna_complete (df : DataFrame) : complete (dropna df).
Proof.
  unfold complete, dropna; simpl. apply Forall_forall.
  intros r Hr. apply filter_In in Hr. tauto.
Qed.

Lemma dropna_wf (df : DataFrame) : wf_frame df -> wf_frame (dropna df).
Proof.
  unfold wf_frame, dropna; simpl. rewrite !Forall_forall.
  intros H r Hr. apply filter_In in Hr. apply H; tauto.
Qed.

Section FenceRule.

Variable x : DataFrame.
Hypothesis x_complete : complete x.
Hypothesis x_wf : wf_frame x.

Lemma complete_cell (r : list float64) (j : nat) :
  In r (values x) -> (j < shape1 x)%nat ->
  exists v, nth j r NaN = Fin v /\ nth_error r j = Some (Fin v).
Proof.
  intros Hr Hj.
  assert (Hlen : length r = shape1 x).
  { unfold wf_frame in x_wf. rewrite Forall_forall in x_wf.
    apply x_wf; exact Hr. }
  assert (Hna : forallb notna r = true).
  { unfold complete in x_complete. rewrite Forall_forall in x_complete.
    apply x_complete; exact Hr. }
  rewrite forallb_forall in Hna.
  assert (Hin : In (nth j r NaN) r) by (apply nth_In; lia).
  specialize (Hna _ Hin).
  destruct (nth j r NaN) as [v|] eqn:E; [|discriminate].
  exists v. split; [reflexivity|].
  rewrite <- E. apply nth_error_nth'. lia.
Qed.

Lemma column_quantile_Fin (r : list float64) (j : nat) (q : Q) :
  In r (values x) -> (j < shape1 x)%nat ->
  column_quantile (column j x) q =
  Fin (percentile_linear (finite_values (column j x)) q) /\
  finite_values (column j x) <> [].
Proof.
  intros Hr Hj. destruct (complete_cell r j Hr Hj) as [v [Hv _]].
  assert (Hin : In v (finite_values (column j x))).
  { apply finite_values_In. unfold column. rewrite <- Hv.
    apply (in_map (fun r => nth j r NaN)). exact Hr. }
  unfold column_quantile.
  destruct (finite_values (column j x)); [contradiction|].
  split; [reflexivity|discriminate].
Qed.

Lemma lower_at_Fin (r : list float64) (j : nat) :
  In r (values x) -> (j < shape1 x)%nat ->
  exists lo, lower_at x j = Fin lo /\
             lo == tukey_lower (finite_values (column j x)).
Proof.
  intros Hr Hj. unfold lower_at.
  destruct (column_quantile_Fin r j (1#4) Hr Hj) as [-> Hne].
  destruct (column_quantile_Fin r j (3#4) Hr Hj) as [-> _].
  simpl. eexists. split; [reflexivity|].
  unfold tukey_lower.
  rewrite !percentile_linear_spec by (auto; lra). reflexivity.
Qed.

Lemma upper_at_Fin (r : list float64) (j : nat) :
  In r (values x) -> (j < shape1 x)%nat ->
  exists hi, upper_at x j = Fin hi /\
             hi == tukey_upper (finite_values (column j x)).
Proof.
  intros Hr Hj. unfold upper_at.
  destruct (column_quantile_Fin r j (1#4) Hr Hj) as [-> Hne].
  destruct (column_quantile_Fin r j (3#4) Hr Hj) as [-> _].
  simpl. eexists. split; [reflexivity|].
  unfold tukey_upper.
  rewrite !percentile_linear_spec by (auto; lra). reflexivity.
Qed.

Lemma keep_row_false_iff (r : list float64) :
  In r (values x) ->
  (keep_row (lower_fence x) (upper_fence x) r = false <-> outlier_row x r).
Proof.
  intro Hr. unfold keep_row. rewrite negb_false_iff.
  assert (Hlen : length r = shape1 x).
  { unfold wf_frame in x_wf. rewrite Forall_forall in x_wf.
    apply x_wf; exact Hr. }
  rewrite (existsb_map2_nth flt fgt NaN r _ _ (shape1 x) Hlen)
    by (rewrite ?lower_fence_map, ?upper_fence_map, length_map, length_seq;
        reflexivity).
  rewrite lower_fence_map, upper_fence_map.
  split.
  - intros [j [Hj H]]. rewrite !nth_map_seq in H by exact Hj.
    destruct (complete_cell r j Hr Hj) as [v [Hv Hve]].
    destruct (lower_at_Fin r j Hr Hj) as [lo [Elo Hlo]].
    destruct (upper_at_Fin r j Hr Hj) as [hi [Ehi Hhi]].
    rewrite Hv, Elo, Ehi in H. simpl in H. unfold fgt in H. simpl in H.
    exists j, v. split; [exact Hj|]. split; [exact Hve|].
    apply orb_true_iff in H. destruct H as [H|H]; apply Qlt_bool_iff in H.
    + left. rewrite <- Hlo. exact H.
    + right. rewrite <- Hhi. exact H.
  - intros [j [v [Hj [Hve H]]]]. exists j. split; [exact Hj|].
    rewrite !nth_map_seq by exact Hj.
    rewrite (nth_error_nth _ _ NaN Hve).
    destruct (lower_at_Fin r j Hr Hj) as [lo [Elo Hlo]].
    destruct (upper_at_Fin r j Hr Hj) as [hi [Ehi Hhi]].
    rewrite Elo, Ehi. simpl. unfold fgt. simpl.
    apply orb_true_iff.
    destruct H as [H|H]; [left|right]; apply Qlt_bool_iff.
    + rewrite Hlo. exact H.
    + rewrite Hhi. exact H.
Qed.

End FenceRule.



(* ================================================================== *)
(** ** Exactly two complete rows *)

Lemma sortQ_two (a b : Q) :
  sortQ [a; b] = if Qle_bool a b then [a; b] else [b; a].
Proof. reflexivity. Qed.

Lemma quartiles_two (a b : Q) :
  linear_quantile [a; b] (1#4) ==
    nth 0 (sortQ [a; b]) 0
    + (1#4) * (nth 1 (sortQ [a; b]) 0 - nth 0 (sortQ [a; b]) 0) /\
  linear_quantile [a; b] (3#4) ==
    nth 0 (sortQ [a; b]) 0
    + (3#4) * (nth 1 (sortQ [a; b]) 0 - nth 0 (sortQ [a; b]) 0).
Proof.
  unfold linear_quantile. rewrite length_sortQ. cbn [length].
  change (Qfloor (inject_Z (Z.of_nat 2 - 1) * (1 # 4))) with 0%Z.
  change (Qfloor (inject_Z (Z.of_nat 2 - 1) * (3 # 4))) with 0%Z.
  change (Z.to_nat 0) with 0%nat.
  change (inject_Z (Z.of_nat 2 - 1) * (1 # 4)) with (1#4).
  change (inject_Z (Z.of_nat 2 - 1) * (3 # 4)) with (3#4).
  change (inject_Z 0) with 0.
  split; ring.
Qed.

Lemma two_values_fences (a b : Q) :
  tukey_lower [a; b] <= a /\ tukey_lower [a; b] <= b /\
  a <= tukey_upper [a; b] /\ b <= tukey_upper [a; b].
Proof.
  unfold tukey_lower, tukey_upper.
  destruct (quartiles_two a b) as [-> ->].
  rewrite sortQ_two.
  destruct (Qle_bool a b) eqn:E; cbn [nth].
  - apply Qle_bool_iff in E. repeat split; lra.
  - assert (Hba : b < a).
    { apply Qnot_le_lt. intro H. apply Qle_bool_iff in H. congruence. }
    repeat split; lra.
Qed.

Lemma two_rows_no_outlier (x : DataFrame) (r1 r2 r : list float64) :
  complete x -> wf_frame x -> values x = [r1; r2] -> In r (values x) ->
  ~ outlier_row x r.
Proof.
  intros Hc Hwf Hv Hr [j [v [Hj [Hve Hout]]]].
  assert (H1 : In r1 (values x)) by (rewrite Hv; simpl; auto).
  assert (H2 : In r2 (values x)) by (rewrite Hv; simpl; auto).
  destruct (complete_cell x Hc Hwf r1 j H1 Hj) as [a [Ha Hae]].
  destruct (complete_cell x Hc Hwf r2 j H2 Hj) as [b [Hb Hbe]].
  assert (Hcol : finite_values (column j x) = [a; b]).
  { unfold column. rewrite Hv. simpl. rewrite Ha, Hb. reflexivity. }
  rewrite Hcol in Hout.
  destruct (two_values_fences a b) as [La [Lb [Ua Ub]]].
  rewrite Hv in Hr. destruct Hr as [<-|[<-|[]]].
  - rewrite Hae in Hve. inversion Hve; subst v. lra.
  - rewrite Hbe in Hve. inversion Hve; subst v. lra.
Qed.



(* ================================================================== *)
(** ** The correlation matrix *)

Lemma Qsqrt_zero (s : Q) : s == 0 -> Qsqrt s == 0.
Proof.
  intro H. unfold Qsqrt. rewrite (Qred_complete s 0 H). reflexivity.
Qed.

Lemma Qsqrt_square (s : Q) : 0 <= s -> Qsqrt (s * s) == s.
Proof.
  intro Hs. unfold Qsqrt.
  pose proof (Qred_correct s) as Hr. pose proof (gcd_Qred s) as Hg.
  set (r := Qred s) in *.
  assert (Hrr : Qred (s * s) = r * r).
  { rewrite (Qred_complete (s * s) (r * r)) by (rewrite Hr; reflexivity).
    apply Qcanon.Qred_identity.
    destruct r as [a b]. simpl in *.
    rewrite Pos2Z.inj_mul.
    apply Z.coprime_mul_l; apply Z.coprime_mul_r; exact Hg. }
  rewrite Hrr. rewrite <- Hr in Hs |- *.
  destruct r as [a b]. simpl.
  assert (Ha : (0 <= a)%Z).
  { unfold Qle in Hs. simpl in Hs. lia. }
  unfold Qeq. simpl.
  replace (a * a * Z.pos (b * b))%Z with ((a * Z.pos b) * (a * Z.pos b))%Z
    by (rewrite Pos2Z.inj_mul; ring).
  rewrite Z.sqrt_square by lia.
  rewrite Pos2Z.inj_mul. ring.
Qed.

Lemma corr_cell (sqrt : Q -> Q) (x : DataFrame) (i j : nat) :
  (i < shape1 x)%nat -> (j < shape1 x)%nat ->
  nth j (nth i (replace_nan_none (corr sqrt x)) []) PyNone =
  nan_to_none (nancorr_cell sqrt 1 (column (Nat.max i j) x)
                                   (column (Nat.min i j) x)).
Proof.
  intros Hi Hj. unfold replace_nan_none, corr. cbn [values].
  rewrite map_map. rewrite nth_map_seq by exact Hi.
  rewrite map_map. rewrite nth_map_seq by exact Hj. reflexivity.
Qed.

Lemma corr_shape (sqrt : Q -> Q) (x : DataFrame) :
  length (replace_nan_none (corr sqrt x)) = shape1 x /\
  Forall (fun row => length row = shape1 x) (replace_nan_none (corr sqrt x)).
Proof.
  unfold replace_nan_none, corr. cbn [values]. split.
  - rewrite !length_map, length_seq. reflexivity.
  - apply Forall_forall. intros row Hrow.
    apply in_map_iff in Hrow. destruct Hrow as [r0 [<- Hr0]].
    apply in_map_iff in Hr0. destruct Hr0 as [i [<- _]].
    rewrite !length_map, length_seq. reflexivity.
Qed.

Section SingleRow.

Variable sqrt : Q -> Q.
Hypothesis sqrt_zero : forall s, s == 0 -> sqrt s == 0.

Lemma nancorr_single (a b : float64) : nancorr_cell sqrt 1 [a] [b] = NaN.
Proof.
  unfold nancorr_cell, pairwise_complete.
  destruct a as [u|], b as [v|]; try reflexivity.
  cbn [combine flat_map app length map fst snd Nat.ltb Nat.leb].
  replace (Qeq_bool _ 0) with true; [reflexivity|].
  symmetry. apply Qeq_bool_iff. apply sqrt_zero.
  unfold mean, Qsum. cbn [fold_right length].
  change (inject_Z (Z.of_nat 1)) with 1. field.
Qed.

Lemma corr_single_row (x : DataFrame) (r : list float64) :
  values x = [r] ->
  replace_nan_none (corr sqrt x) =
  repeat (repeat PyNone (shape1 x)) (shape1 x).
Proof.
  intro Hv. unfold replace_nan_none, corr. cbn [values].
  rewrite map_map.
  transitivity (map (fun _ : nat => map (fun _ : nat => PyNone)
                                        (seq 0 (shape1 x)))
                    (seq 0 (shape1 x))).
  - apply map_ext. intro i. rewrite map_map. apply map_ext. intro j.
    unfold column. rewrite Hv. cbn [map].
    rewrite nancorr_single. reflexivity.
  - rewrite !map_const, !length_seq. reflexivity.
Qed.

End SingleRow.

(** C9. When the removal leaves exactly one row (of at least two
    complete rows, on at least two fields), the engine does not return
    absent: it returns the matrix of the full dimension whose every cell
    is [None], with all the selected fields as headers. *)
Theorem single_row_all_none (sqrt : Q -> Q)
  (sqrt_zero : forall s, s == 0 -> sqrt s == 0)
  (df : DataFrame) (fields : list string) (sel : DataFrame) :
  getitem df fields = Ok sel ->
  (2 <= shape0 (dropna sel))%nat -> (2 <= length fields)%nat ->
  length (values (remove_outliers (dropna sel))) = 1%nat ->
  calculate_correlation_matrix sqrt df fields =
  Ok (Some {| matrix := repeat (repeat PyNone (length fields)) (length fields);
              headers := fields |}).
Proof.
  intros E Hr Hf Hone. rewrite (calculate_eq sqrt _ _ _ E).
  unfold engine_result.
  replace ((shape0 (dropna sel) <? 2)%nat || (length fields <? 2)%nat)
    with false
    by (symmetry; apply orb_false_iff; split; apply Nat.ltb_ge; assumption).
  destruct (values (remove_outliers (dropna sel))) as [|r [|r' rest]] eqn:V;
    try discriminate Hone.
  rewrite (corr_single_row sqrt sqrt_zero _ r V).
  assert (HK : shape1 (remove_outliers (dropna sel)) = length fields).
  { destruct (getitem_Ok _ _ _ E) as [Hc _]. unfold shape1.
    rewrite <- Hc. reflexivity. }
  rewrite HK. reflexivity.
Qed.

Lemma single_row_all_none_witness :
  calculate_correlation_matrix Qsqrt single_survivor_frame
    ["A"; "B"; "C"; "D"]%string =
  Ok (Some {| matrix := repeat (repeat PyNone 4) 4;
              headers := ["A"; "B"; "C"; "D"]%string |}).
Proof.
  apply (single_row_all_none Qsqrt Qsqrt_zero single_survivor_frame
           ["A"; "B"; "C"; "D"]%string single_survivor_frame).
  - vm_compute; reflexivity.
  - vm_compute; lia.
  - vm_compute; lia.
  - vm_compute; reflexivity.
Defined.

Lemma pairwise_complete_diag (c : list float64) :
  pairwise_complete c c = map (fun v => (v, v)) (finite_values c).
Proof.
  unfold pairwise_complete, finite_values.
  induction c as [|[q|] c IH]; simpl; auto. rewrite IH. reflexivity.
Qed.

Lemma Qsum_squares_nonneg {A : Type} (f : A -> Q) (l : list A) :
  0 <= Qsum (map (fun a => f a * f a) l).
Proof.
  induction l as [|a l IH]; simpl; [lra|]. nra.
Qed.

Lemma clip_one (val : Q) : val == 1 -> clip val == 1.
Proof.
  intro H. unfold clip.
  destruct (Qlt_bool 1 val) eqn:E1; [reflexivity|].
  destruct (Qlt_bool val (-(1))) eqn:E2; [|exact H].
  apply Qlt_bool_iff in E2. lra.
Qed.

Lemma Qsum_squares_zero {A : Type} (f : A -> Q) (l : list A) :
  Qsum (map (fun a => f a * f a) l) == 0 <-> forall a, In a l -> f a == 0.
Proof.
  induction l as [|b l IH]; simpl.
  - split; [intros _ a []|reflexivity].
  - pose proof (Qsum_squares_nonneg f l) as Hl. split.
    + intros H a [<-|Ha].
      * assert (Hb : f b * f b == 0) by nra.
        apply Qmult_integral in Hb. tauto.
      * apply IH; [nra|exact Ha].
    + intro H. rewrite (H b) by (left; reflexivity).
      rewrite (proj2 IH) by (intros a Ha; apply H; right; exact Ha).
      ring.
Qed.

(** Zero variance means a constant column. *)
Lemma zero_variance_iff_constant (vals : list Q) :
  sum_sq_dev vals == 0 <-> forall v, In v vals -> v == mean vals.
Proof.
  unfold sum_sq_dev.
  rewrite (Qsum_squares_zero (fun v => v - mean vals)).
  split; intros H v Hv; specialize (H v Hv); lra.
Qed.

Section Diagonal.

Variable sqrt : Q -> Q.
Hypothesis sqrt_square : forall s, 0 <= s -> sqrt (s * s) == s.

Lemma nancorr_diag (c : list float64) :
  (sum_sq_dev (finite_values c) == 0 -> nancorr_cell sqrt 1 c c = NaN) /\
  (~ sum_sq_dev (finite_values c) == 0 ->
   exists q, nancorr_cell sqrt 1 c c = Fin q /\ q == 1).
Proof.
  unfold nancorr_cell. rewrite pairwise_complete_diag.
  rewrite length_map, !map_map. cbn [fst snd].
  rewrite map_id. fold (sum_sq_dev (finite_values c)).
  set (S := sum_sq_dev (finite_values c)).
  assert (HS : 0 <= S) by apply Qsum_squares_nonneg.
  destruct (length (finite_values c) <? 1)%nat eqn:L.
  - split; [reflexivity|].
    intro HnS. exfalso. apply HnS. unfold S.
    destruct (finite_values c); [reflexivity|discriminate L].
  - pose proof (sqrt_square S HS) as Hd. split.
    + intro HS0. replace (Qeq_bool (sqrt (S * S)) 0) with true;
        [reflexivity|].
      symmetry. apply Qeq_bool_iff. rewrite Hd. exact HS0.
    + intro HnS. replace (Qeq_bool (sqrt (S * S)) 0) with false.
      * cbn [negb]. eexists. split; [reflexivity|].
        apply clip_one. rewrite Hd. field. exact HnS.
      * symmetry. destruct (Qeq_bool (sqrt (S * S)) 0) eqn:B; auto.
        apply Qeq_bool_iff in B. rewrite Hd in B. contradiction.
Qed.

End Diagonal.



(* ================================================================== *)
(** ** The response document *)

Lemma insert_sorted_InA (k a : Q) (l : list Q) :
  InA Qeq k (insert_sorted a l) <-> k == a \/ InA Qeq k l.
Proof.
  induction l as [|b l IH]; simpl.
  - rewrite InA_cons. reflexivity.
  - destruct (Qle_bool a b).
    + rewrite InA_cons. reflexivity.
    + rewrite !InA_cons, IH. tauto.
Qed.

Lemma sortQ_InA (k : Q) (l : list Q) :
  InA Qeq k (sortQ l) <-> InA Qeq k l.
Proof.
  induction l as [|a l IH]; simpl; [reflexivity|].
  rewrite insert_sorted_InA, InA_cons, IH. reflexivity.
Qed.

Lemma insert_sorted_NoDupA (a : Q) (l : list Q) :
  NoDupA Qeq l -> ~ InA Qeq a l -> NoDupA Qeq (insert_sorted a l).
Proof.
  induction l as [|b l IH]; simpl; intros Hnd Hin.
  - constructor; [exact Hin|constructor].
  - destruct (Qle_bool a b); [constructor; assumption|].
    inversion Hnd; subst. constructor.
    + rewrite insert_sorted_InA. intros [H|H]; [|contradiction].
      apply Hin. left. symmetry; exact H.
    + apply IH; [assumption|]. intro H; apply Hin; right; exact H.
Qed.

Lemma sortQ_NoDupA (l : list Q) : NoDupA Qeq l -> NoDupA Qeq (sortQ l).
Proof.
  induction 1 as [|a l Ha Hnd IH]; simpl; [constructor|].
  apply insert_sorted_NoDupA; [exact IH|]. rewrite sortQ_InA. exact Ha.
Qed.

Lemma insert_sorted_Forall (P : Q -> Prop) (a : Q) (l : list Q) :
  P a -> Forall P l -> Forall P (insert_sorted a l).
Proof.
  intros Ha Hl. induction Hl as [|b l Hb Hl IH]; simpl.
  - constructor; [exact Ha|constructor].
  - destruct (Qle_bool a b); constructor; auto.
Qed.

Lemma insert_sorted_sorted (a : Q) (l : list Q) :
  StronglySorted Qle l -> StronglySorted Qle (insert_sorted a l).
Proof.
  induction 1 as [|b l Hs IH Hb]; simpl.
  - constructor; constructor.
  - destruct (Qle_bool a b) eqn:E.
    + apply Qle_bool_iff in E. constructor; [constructor; assumption|].
      constructor; [exact E|].
      apply Forall_impl with (P := Qle b); [|exact Hb].
      intros c Hc. apply Qle_trans with b; assumption.
    + assert (Hba : b <= a).
      { apply Qlt_le_weak, Qnot_le_lt. intro H.
        apply Qle_bool_iff in H. congruence. }
      constructor; [exact IH|].
      apply insert_sorted_Forall; assumption.
Qed.

Lemma sortQ_sorted (l : list Q) : StronglySorted Qle (sortQ l).
Proof.
  induction l as [|a l IH]; simpl; [constructor|].
  apply insert_sorted_sorted; exact IH.
Qed.

Lemma filter_NoDupA (f : Q -> bool) (l : list Q) :
  NoDupA Qeq l -> NoDupA Qeq (filter f l).
Proof.
  induction 1 as [|a l Ha Hnd IH]; simpl; [constructor|].
  destruct (f a); [|exact IH]. constructor; [|exact IH].
  intro H. apply Ha. apply InA_alt in H. destruct H as [y [Hy Hin]].
  apply filter_In in Hin. apply InA_alt. exists y. tauto.
Qed.

Lemma filter_sorted (f : Q -> bool) (l : list Q) :
  StronglySorted Qle l -> StronglySorted Qle (filter f l).
Proof.
  induction 1 as [|a l Hs IH Ha]; simpl; [constructor|].
  destruct (f a); [|exact IH]. constructor; [exact IH|].
  rewrite Forall_forall in *. intros y Hy. apply filter_In in Hy.
  apply Ha; tauto.
Qed.

Lemma group_keys_spec (df : DataFrame) (i : nat) :
  (forall k, InA Qeq k (group_keys df i) <->
             InA Qeq k (finite_values (column i df))) /\
  NoDupA Qeq (group_keys df i) /\
  StronglySorted Qle (group_keys df i).
Proof.
  unfold group_keys. split; [|split].
  - intro k. rewrite sortQ_InA. unfold unique.
    rewrite (unique_from_InA Qeq_bool Qeq Q_Setoid Qeq_bool_iff).
    rewrite InA_nil. tauto.
  - apply sortQ_NoDupA.
    apply (unique_from_NoDupA Qeq_bool Qeq Q_Setoid Qeq_bool_iff).
  - apply sortQ_sorted.
Qed.

Lemma get_loc_existsb (cols : list string) (name : string) (i : nat) :
  get_loc cols name = Some i -> existsb (String.eqb name) cols = true.
Proof.
  revert i. induction cols as [|c cols IH]; simpl; intros i H.
  - discriminate H.
  - rewrite (String.eqb_sym name c).
    destruct (String.eqb c name); [reflexivity|]. simpl.
    destruct (get_loc cols name) as [i'|]; [|discriminate H].
    apply (IH i'). reflexivity.
Qed.

Section Response.

Variable sqrt : Q -> Q.
Variable attribute_description_df : AttrTable.
Variable input_df : DataFrame.
Variable i : nat.

Local Abbreviation has_result :=
  (sector_has_result sqrt attribute_description_df input_df i).
Local Abbreviation entry :=
  (sector_entry sqrt attribute_description_df input_df i).

Lemma group_slice_proper (k k' : Q) :
  k == k' -> group_slice input_df i k = group_slice input_df i k'.
Proof.
  intro H. unfold group_slice. f_equal. apply filter_ext. intro r.
  destruct (nth i r NaN); [|reflexivity]. rewrite H. reflexivity.
Qed.

Lemma has_result_proper (k k' : Q) : k == k' -> has_result k = has_result k'.
Proof.
  intro H. unfold has_result, sector_has_result, sector_matrices.
  rewrite (group_slice_proper k k' H). reflexivity.
Qed.

Lemma sector_loop_eq (keys : list Q) (acc : list SectorEntry) :
  sector_loop sqrt attribute_description_df
    (map (fun k => (k, group_slice input_df i k)) keys) acc =
  Ok (acc ++ map entry (filter has_result keys)).
Proof.
  revert acc. induction keys as [|k keys IH]; intro acc; simpl.
  - rewrite app_nil_r. reflexivity.
  - destruct (group_loop_spec sqrt attribute_description_df
                (group_slice input_df i k)
                (indicator_groups attribute_description_df) [])
      as [d [Hd _]].
    assert (Hm : sector_matrices sqrt attribute_description_df input_df i k
                 = d).
    { unfold sector_matrices. rewrite Hd. reflexivity. }
    assert (He : entry k = {| ten_nganh := k;
                              group_correlation_matrices := d |}).
    { unfold entry, sector_entry. rewrite Hm. reflexivity. }
    assert (Hh : has_result k = match d with [] => false | _ => true end).
    { unfold has_result, sector_has_result. rewrite Hm. reflexivity. }
    rewrite Hd, Hh. cbn [bind].
    destruct d as [|e d].
    + apply IH.
    + rewrite IH. cbn [map]. rewrite He, <- app_assoc. reflexivity.
Qed.

Lemma response_eq :
  get_loc (columns input_df) sector_column = Some i ->
  get_correlation_api sqrt attribute_description_df input_df =
  Ok (Json (map entry (filter has_result (group_keys input_df i)))).
Proof.
  intro Hloc. unfold get_correlation_api, groupby.
  rewrite (get_loc_existsb _ _ _ Hloc), Hloc. cbn [negb bind].
  rewrite sector_loop_eq. reflexivity.
Qed.

End Response.

(** C1 (as stated) fails: the only sector of [one_row_frame] has a
    single row, no group gives a result for it, and the response is the
    empty list although sector 7 is present in the input. *)
Lemma empty_sector_is_omitted :
  ~ covers_all_sectors Qsqrt two_field_table one_row_frame.
Proof.
  intro H. destruct (H 0%nat eq_refl) as [results [E Hk]].
  vm_compute in E. inversion E; subst results; clear E.
  assert (Hin : InA Qeq (inject_Z 7) (map ten_nganh [])).
  { apply Hk. vm_compute. left. reflexivity. }
  inversion Hin.
Qed.

(** C1 (amended). For an input with the sector column, the response is
    the list of one entry per distinct non-missing sector value for
    which at least one indicator group produced a result, in ascending
    order of the sector value; a sector without any result has no
    entry, and every entry holds at least one result. *)
Theorem response_sectors (sqrt : Q -> Q)
  (attribute_description_df : AttrTable) (input_df : DataFrame) (i : nat) :
  get_loc (columns input_df) sector_column = Some i ->
  exists results,
    get_correlation_api sqrt attribute_description_df input_df
    = Ok (Json results) /\
    (forall k,
        InA Qeq k (map ten_nganh results) <->
        InA Qeq k (finite_values (column i input_df)) /\
        sector_has_result sqrt attribute_description_df input_df i k = true) /\
    NoDupA Qeq (map ten_nganh results) /\
    StronglySorted Qle (map ten_nganh results) /\
    Forall (fun e =>
              group_correlation_matrices e =
                sector_matrices sqrt attribute_description_df input_df i
                  (ten_nganh e) /\
              group_correlation_matrices e <> []) results.
Proof.
  intro Hloc. eexists. split; [apply response_eq; exact Hloc|].
  destruct (group_keys_spec input_df i) as [Hin [Hnd Hsort]].
  rewrite map_map. cbn [sector_entry ten_nganh]. rewrite map_id.
  split; [|split; [|split]].
  - intro k. rewrite filter_InA, Hin; [reflexivity|].
    intros a b Hab. apply has_result_proper. exact Hab.
  - apply filter_NoDupA. exact Hnd.
  - apply filter_sorted. exact Hsort.
  - apply Forall_forall. intros e He.
    apply in_map_iff in He. destruct He as [k [<- Hk]].
    apply filter_In in Hk. destruct Hk as [_ Hk].
    cbn [sector_entry ten_nganh group_correlation_matrices].
    split; [reflexivity|].
    unfold sector_has_result in Hk.
    destruct (sector_matrices _ _ _ _ k); [discriminate Hk|discriminate].
Qed.

Lemma response_sectors_witness :
  exists results,
    get_correlation_api Qsqrt two_field_table two_sector_frame
    = Ok (Json results) /\
    (forall k,
        InA Qeq k (map ten_nganh results) <->
        InA Qeq k (finite_values (column 0 two_sector_frame)) /\
        sector_has_result Qsqrt two_field_table two_sector_frame 0 k = true) /\
    NoDupA Qeq (map ten_nganh results) /\
    StronglySorted Qle (map ten_nganh results) /\
    Forall (fun e =>
              group_correlation_matrices e =
                sector_matrices Qsqrt two_field_table two_sector_frame 0
                  (ten_nganh e) /\
              group_correlation_matrices e <> []) results.
Proof.
  apply (response_sectors Qsqrt two_field_table two_sector_frame 0).
  vm_compute. reflexivity.
Defined.

(* ================================================================== *)
(** ** Missing labels *)

Lemma get_loc_None (cols : list string) (name : string) :
  get_loc cols name = None <-> ~ In name cols.
Proof.
  induction cols as [|c cols IH]; simpl.
  - tauto.
  - destruct (String.eqb c name) eqn:E.
    + apply String.eqb_eq in E. split; [discriminate|]. intro H.
      exfalso; apply H; left; exact E.
    + apply String.eqb_neq in E.
      destruct (get_loc cols name) as [i|]; simpl.
      * split; [discriminate|]. intro H. exfalso.
        assert (Hn : ~ In name cols) by (intro; apply H; right; assumption).
        apply IH in Hn. discriminate Hn.
      * split; [|reflexivity]. intros _ [H|H]; [contradiction|].
        apply (proj1 IH); [reflexivity|exact H].
Qed.

Lemma mapM_KeyError {A B : Type} (f : A -> exc B) (l : list A) :
  (exists key, mapM f l = KeyError key) <->
  (exists a key, In a l /\ f a = KeyError key).
Proof.
  induction l as [|a l IH]; simpl.
  - split; [intros [key H]; discriminate H|intros [a [key [[] _]]]].
  - destruct (f a) as [b|key0] eqn:Ea; simpl.
    + destruct (mapM f l) as [bs|key1] eqn:El; simpl.
      * split; [intros [key H]; discriminate H|].
        intros [a' [key [[<-|Hin] Hf]]]; [congruence|].
        destruct (proj2 IH) as [key' H']; [|discriminate H'].
        exists a', key. tauto.
      * split; [|intros _; eexists; reflexivity].
        intros _. destruct (proj1 IH) as [a' [key [Hin Hf]]];
          [eexists; reflexivity|].
        exists a', key. tauto.
    + split; [|intros _; eexists; reflexivity].
      intros _. exists a, key0. tauto.
Qed.

Lemma getitem_KeyError (df : DataFrame) (fields : list string) :
  (exists key, getitem df fields = KeyError key) <->
  (exists f, In f fields /\ ~ In f (columns df)).
Proof.
  unfold getitem.
  set (loc := fun f => match get_loc (columns df) f with
                       | Some i => Ok i
                       | None => KeyError f
                       end).
  split.
  - intros [key H]. destruct (mapM loc fields) as [idxs|key'] eqn:E;
      [discriminate H|].
    destruct (proj1 (mapM_KeyError loc fields)) as [f [k [Hin Hf]]];
      [eexists; exact E|].
    exists f. split; [exact Hin|]. apply get_loc_None.
    unfold loc in Hf. destruct (get_loc (columns df) f); [discriminate Hf|].
    reflexivity.
  - intros [f [Hin Hf]]. apply get_loc_None in Hf.
    destruct (proj2 (mapM_KeyError loc fields)) as [key E].
    + exists f, f. split; [exact Hin|]. unfold loc. rewrite Hf. reflexivity.
    + rewrite E. eexists; reflexivity.
Qed.

(** X1. The engine raises [KeyError] exactly when some requested field
    is not a column of the frame; otherwise it returns normally. *)
Theorem engine_key_error_iff (sqrt : Q -> Q) (df : DataFrame)
  (fields : list string) :
  (exists key, calculate_correlation_matrix sqrt df fields = KeyError key) <->
  (exists f, In f fields /\ ~ In f (columns df)).
Proof.
  rewrite <- getitem_KeyError. split.
  - intros [key H]. destruct (getitem df fields) as [sel|key'] eqn:E.
    + rewrite (calculate_eq sqrt _ _ _ E) in H. discriminate H.
    + eexists; reflexivity.
  - intros [key H]. unfold calculate_correlation_matrix. rewrite H.
    eexists; reflexivity.
Qed.

(* ================================================================== *)
(** ** The table's groups *)

Lemma indicator_groups_nodup (attribute_description_df : AttrTable) :
  NoDup (indicator_groups attribute_description_df).
Proof. apply unique_NoDup. Qed.

(** X2. [indicator_groups] lists every group label of the table once,
    and each listed group resolves to at least one field. *)
Theorem indicator_groups_spec (attribute_description_df : AttrTable) :
  NoDup (indicator_groups attribute_description_df) /\
  (forall g, In g (indicator_groups attribute_description_df) <->
             exists r, In r attribute_description_df /\ group r = g) /\
  (forall g, In g (indicator_groups attribute_description_df) ->
             get_fields_for_group attribute_description_df g <> []).
Proof.
  unfold indicator_groups.
  assert (Hin : forall g,
    In g (unique String.eqb (map group attribute_description_df)) <->
    exists r, In r attribute_description_df /\ group r = g).
  { intro g. rewrite unique_In, in_map_iff. split; intros [r H]; exists r; tauto. }
  split; [apply unique_NoDup|]. split; [exact Hin|].
  intros g Hg E. apply Hin in Hg. destruct Hg as [r [Hr Hgr]].
  assert (Hf : In (field r)
                 (get_fields_for_group attribute_description_df g)).
  { unfold get_fields_for_group. rewrite unique_In. apply in_map.
    apply filter_In. split; [exact Hr|]. apply String.eqb_eq. exact Hgr. }
  rewrite E in Hf. exact Hf.
Qed.

(* ================================================================== *)
(** ** The sector's mapping *)

Lemma dict_set_fresh {V : Type} (k : string) (v : V) (d : dict V) :
  ~ In k (map fst d) -> dict_set k v d = d ++ [(k, v)].
Proof.
  induction d as [|[k0 v0] d IH]; simpl; intro H; [reflexivity|].
  destruct (String.eqb k0 k) eqn:E.
  - apply String.eqb_eq in E. exfalso; apply H; left; exact E.
  - rewrite IH; [reflexivity|]. intro Hin; apply H; right; exact Hin.
Qed.

Section SectorMapping.

Variable sqrt : Q -> Q.
Variable attribute_description_df : AttrTable.
Variable industry_df : DataFrame.

Local Abbreviation result_of :=
  (group_result sqrt attribute_description_df industry_df).
Local Abbreviation items :=
  (group_items sqrt attribute_description_df industry_df).

Lemma group_loop_step (g0 : string) (rest : list string)
  (acc : dict CorrResult) :
  group_loop sqrt attribute_description_df industry_df (g0 :: rest) acc =
  group_loop sqrt attribute_description_df industry_df rest
    match result_of g0 with
    | Some m => dict_set g0 m acc
    | None => acc
    end.
Proof.
  cbn [group_loop]. unfold group_result, group_existing.
  destruct (length _ <? 2)%nat; [reflexivity|].
  destruct (getitem_present industry_df
              (existing_fields
                 (get_fields_for_group attribute_description_df g0)
                 industry_df)
              (existing_fields_present _ _)) as [sel E].
  rewrite (calculate_eq sqrt _ _ _ E). cbn [bind].
  destruct (engine_result sqrt _ sel); reflexivity.
Qed.

Lemma group_loop_items (groups : list string) (acc : dict CorrResult) :
  NoDup groups ->
  (forall g, In g groups -> ~ In g (map fst acc)) ->
  group_loop sqrt attribute_description_df industry_df groups acc =
  Ok (acc ++ items groups).
Proof.
  intro Hnd. revert acc.
  induction Hnd as [|g0 rest Hg0 Hnd IH]; intros acc Hacc.
  - simpl. rewrite app_nil_r. reflexivity.
  - rewrite group_loop_step. unfold group_items. cbn [flat_map].
    fold (items rest).
    destruct (result_of g0) as [m|].
    + rewrite dict_set_fresh by (apply Hacc; left; reflexivity).
      rewrite IH.
      * rewrite <- app_assoc. reflexivity.
      * intros g Hg. rewrite map_app, in_app_iff. simpl.
        intros [H|[H|[]]].
        -- apply (Hacc g); [right; exact Hg|exact H].
        -- subst g. contradiction.
    + apply IH. intros g Hg. apply Hacc. right; exact Hg.
Qed.

Lemma group_items_keys (groups : list string) :
  map fst (items groups) =
  filter (has_group_result sqrt attribute_description_df industry_df) groups.
Proof.
  unfold group_items, has_group_result.
  induction groups as [|g groups IH]; simpl; [reflexivity|].
  destruct (result_of g); simpl; rewrite IH; reflexivity.
Qed.

Lemma group_items_absent (groups : list string) (g : string) :
  ~ In g groups -> dict_get g (items groups) = None.
Proof.
  unfold group_items.
  induction groups as [|g0 groups IH]; simpl; intro H; [reflexivity|].
  assert (Hne : String.eqb g0 g = false).
  { apply String.eqb_neq. intro; apply H; left; assumption. }
  destruct (result_of g0); simpl; rewrite ?Hne; apply IH;
    intro; apply H; right; assumption.
Qed.

Lemma group_items_lookup (groups : list string) (g : string) :
  NoDup groups -> In g groups -> dict_get g (items groups) = result_of g.
Proof.
  induction 1 as [|g0 groups Hg0 Hnd IH]; intro Hin; [contradiction|].
  unfold group_items. cbn [flat_map]. fold (items groups).
  destruct (String.eqb g0 g) eqn:E.
  - apply String.eqb_eq in E. subst g0.
    destruct (result_of g) as [m|] eqn:R; simpl.
    + rewrite String.eqb_refl. reflexivity.
    + apply group_items_absent. exact Hg0.
  - assert (Hin' : In g groups).
    { destruct Hin as [Hin|Hin]; [|exact Hin].
      subst g0. rewrite String.eqb_refl in E. discriminate E. }
    destruct (result_of g0); simpl; rewrite ?E; apply IH; exact Hin'.
Qed.

End SectorMapping.

(** X3. For one sector, the loop over the groups ends normally and
    builds the mapping whose keys are the table's groups that gave a
    result, once each and in the table's order; looking a group up
    gives the engine's result on the group's existing fields, and
    nothing for a label that is not a group of the table. *)
Theorem sector_mapping_spec (sqrt : Q -> Q)
  (attribute_description_df : AttrTable) (industry_df : DataFrame) :
  exists group_matrices,
    group_loop sqrt attribute_description_df industry_df
      (indicator_groups attribute_description_df) [] = Ok group_matrices /\
    NoDup (map fst group_matrices) /\
    map fst group_matrices =
      filter (has_group_result sqrt attribute_description_df industry_df)
        (indicator_groups attribute_description_df) /\
    (forall g, In g (indicator_groups attribute_description_df) ->
       dict_get g group_matrices =
       group_result sqrt attribute_description_df industry_df g) /\
    (forall g, ~ In g (indicator_groups attribute_description_df) ->
       dict_get g group_matrices = None).
Proof.
  pose proof (indicator_groups_nodup attribute_description_df) as Hnd.
  eexists. split.
  - rewrite group_loop_items; [reflexivity|exact Hnd|].
    intros g _ [].
  - cbn [app]. rewrite group_items_keys.
    split; [apply NoDup_filter; exact Hnd|]. split; [reflexivity|].
    split.
    + intros g Hg. apply group_items_lookup; assumption.
    + intros g Hg. apply group_items_absent; assumption.
Qed.

Lemma group_result_Some (sqrt : Q -> Q)
  (attribute_description_df : AttrTable) (industry_df : DataFrame)
  (g : string) (m : CorrResult) :
  group_result sqrt attribute_description_df industry_df g = Some m ->
  let existing := group_existing attribute_description_df industry_df g in
  (2 <= length existing)%nat /\
  exists sel, getitem industry_df existing = Ok sel /\
    (2 <= shape0 (dropna sel))%nat /\
    values (remove_outliers (dropna sel)) <> [] /\
    m = {| matrix :=
             replace_nan_none (corr sqrt (remove_outliers (dropna sel)));
           headers := existing |}.
Proof.
  intros H existing. unfold group_result in H. fold existing in H.
  cbv zeta in H.
  destruct (length existing <? 2)%nat eqn:L; [discriminate H|].
  apply Nat.ltb_ge in L. split; [exact L|].
  destruct (calculate_correlation_matrix sqrt industry_df existing)
    as [r|key] eqn:C; [|discriminate H].
  subst r. apply calculate_inv in C. destruct C as [sel [E R]].
  exists sel. split; [exact E|].
  unfold engine_result in R.
  destruct (shape0 (dropna sel) <? 2)%nat eqn:S0; [discriminate R|].
  apply Nat.ltb_ge in S0.
  replace (length existing <? 2)%nat with false in R
    by (symmetry; apply Nat.ltb_ge; exact L).
  cbn [orb] in R.
  destruct (values (remove_outliers (dropna sel))) eqn:V; [discriminate R|].
  inversion R. split; [exact S0|]. split; [discriminate|reflexivity].
Qed.

(** X4. Every result stored in a sector's mapping belongs to a group of
    the table; its headers are the group's fields that are columns of
    the slice, in the resolver's order, at least two and without
    repetition, and its matrix is square over these headers. *)
Theorem sector_mapping_results (sqrt : Q -> Q)
  (attribute_description_df : AttrTable) (industry_df : DataFrame)
  (group_matrices : dict CorrResult) (g : string) (m : CorrResult) :
  group_loop sqrt attribute_description_df industry_df
    (indicator_groups attribute_description_df) [] = Ok group_matrices ->
  In (g, m) group_matrices ->
  In g (indicator_groups attribute_description_df) /\
  headers m =
    existing_fields (get_fields_for_group attribute_description_df g)
      industry_df /\
  (2 <= length (headers m))%nat /\
  NoDup (headers m) /\
  (forall f, In f (headers m) ->
     In f (columns industry_df) /\
     In f (get_fields_for_group attribute_description_df g)) /\
  length (matrix m) = length (headers m) /\
  Forall (fun row => length row = length (headers m)) (matrix m).
Proof.
  intros Hloop Hin.
  rewrite group_loop_items in Hloop;
    [|apply indicator_groups_nodup|intros g' _ []].
  inversion Hloop; subst group_matrices; clear Hloop. cbn [app] in Hin.
  unfold group_items in Hin. apply in_flat_map in Hin.
  destruct Hin as [g' [Hg' Hgm]].
  destruct (group_result sqrt attribute_description_df industry_df g')
    as [m'|] eqn:R; [|contradiction].
  destruct Hgm as [Hgm|[]]. inversion Hgm; subst g' m'; clear Hgm.
  destruct (group_result_Some _ _ _ _ _ R) as [L [sel [E [_ [_ Hm]]]]].
  assert (HK : shape1 (remove_outliers (dropna sel)) =
               length (group_existing attribute_description_df
                         industry_df g)).
  { destruct (getitem_Ok _ _ _ E) as [Hc _]. unfold shape1.
    rewrite <- Hc. reflexivity. }
  subst m. cbn [headers matrix]. unfold group_existing in *.
  split; [exact Hg'|]. split; [reflexivity|]. split; [exact L|].
  split; [|split].
  - unfold existing_fields. apply NoDup_filter.
    apply (get_fields_for_group_nodup attribute_description_df g).
  - intros f Hf. split; [apply (existing_fields_present _ _ f Hf)|].
    unfold existing_fields in Hf. apply filter_In in Hf. tauto.
  - rewrite <- HK. apply corr_shape.
Qed.

Lemma sector_mapping_results_witness :
  In "G"%string (indicator_groups two_group_table) /\
  headers {| matrix := [[PyNone; PyNone]; [PyNone; PyFloat (Fin (32 # 32))]];
             headers := ["A"; "B"]%string |} =
    existing_fields (get_fields_for_group two_group_table "G"%string)
      constant_frame /\
  (2 <= 2)%nat /\
  NoDup ["A"; "B"]%string /\
  (forall f, In f ["A"; "B"]%string ->
     In f (columns constant_frame) /\
     In f (get_fields_for_group two_group_table "G"%string)) /\
  2%nat = 2%nat /\
  Forall (fun row => length row = 2%nat)
    [[PyNone; PyNone]; [PyNone; PyFloat (Fin (32 # 32))]].
Proof.
  apply (sector_mapping_results Qsqrt two_group_table constant_frame
           [("G"%string,
             {| matrix := [[PyNone; PyNone];
                           [PyNone; PyFloat (Fin (32 # 32))]];
                headers := ["A"; "B"]%string |})]
           "G"%string).
  - vm_compute. reflexivity.
  - left. reflexivity.
Defined.

(* ================================================================== *)
(** ** Grouping by sector and the response *)

Lemma finite_values_In_inv (v : Q) (col : list float64) :
  In v (finite_values col) -> In (Fin v) col.
Proof.
  unfold finite_values. intro H. apply in_flat_map in H.
  destruct H as [c [Hc Hv]]. destruct c as [q|]; [|contradiction].
  destruct Hv as [<-|[]]. exact Hc.
Qed.

Lemma NoDupA_In_eq (l : list Q) (k k' : Q) :
  NoDupA Qeq l -> In k l -> In k' l -> k == k' -> k = k'.
Proof.
  induction 1 as [|a l Ha Hnd IH]; intros Hk Hk' E; [contradiction|].
  destruct Hk as [<-|Hk], Hk' as [<-|Hk']; auto.
  - exfalso. apply Ha. apply InA_alt. exists k'. tauto.
  - exfalso. apply Ha. apply InA_alt. exists k. split; [symmetry|]; tauto.
Qed.

Lemma group_slice_rows (df : DataFrame) (i : nat) (k : Q)
  (r : list float64) :
  In r (values (group_slice df i k)) <->
  In r (values df) /\ exists v, nth i r NaN = Fin v /\ v == k.
Proof.
  unfold group_slice. cbn [values]. rewrite filter_In. split.
  - intros [Hr H]. split; [exact Hr|].
    destruct (nth i r NaN) as [v|]; [|discriminate H].
    exists v. split; [reflexivity|]. apply Qeq_bool_iff. exact H.
  - intros [Hr [v [-> Hv]]]. split; [exact Hr|].
    apply Qeq_bool_iff. exact Hv.
Qed.

(** X5. Grouping by an existing column splits the rows that hold a
    value in it: each slice keeps every column, is not empty and holds
    exactly the rows whose key equals the slice's key; every row with a
    key falls in some slice, a row whose key is missing falls in none,
    and no two slices share a key. *)
Theorem groupby_partition (df : DataFrame) (key : string) (i : nat) :
  get_loc (columns df) key = Some i ->
  exists slices,
    groupby df key = Ok slices /\
    (forall k s, In (k, s) slices ->
       columns s = columns df /\ values s <> [] /\
       forall r, In r (values s) <->
                 In r (values df) /\ exists v, nth i r NaN = Fin v /\ v == k) /\
    (forall r v, In r (values df) -> nth i r NaN = Fin v ->
       exists k s, In (k, s) slices /\ v == k /\ In r (values s)) /\
    (forall k s k' s', In (k, s) slices -> In (k', s') slices ->
       k == k' -> k = k' /\ s = s').
Proof.
  intro Hloc. unfold groupby. rewrite Hloc. eexists. split; [reflexivity|].
  destruct (group_keys_spec df i) as [Hin [Hnd _]].
  split; [|split].
  - intros k s Hks. apply in_map_iff in Hks.
    destruct Hks as [k0 [Hk0 Hk]]. inversion Hk0; subst k0 s; clear Hk0.
    split; [reflexivity|]. split; [|apply group_slice_rows].
    assert (HA : InA Qeq k (finite_values (column i df))).
    { apply Hin. apply In_InA; [apply Q_Setoid|exact Hk]. }
    apply InA_alt in HA. destruct HA as [v [Hkv Hv]].
    apply finite_values_In_inv in Hv. unfold column in Hv.
    apply in_map_iff in Hv. destruct Hv as [r [Hr Hrin]].
    intro E.
    assert (Hrs : In r (values (group_slice df i k))).
    { apply group_slice_rows. split; [exact Hrin|].
      exists v. split; [exact Hr|symmetry; exact Hkv]. }
    rewrite E in Hrs. exact Hrs.
  - intros r v Hr Hv.
    assert (HA : InA Qeq v (group_keys df i)).
    { apply Hin. apply In_InA; [apply Q_Setoid|].
      apply finite_values_In. unfold column. rewrite <- Hv.
      apply (in_map (fun r => nth i r NaN)). exact Hr. }
    apply InA_alt in HA. destruct HA as [k [Hvk Hk]].
    exists k, (group_slice df i k). split; [|split; [exact Hvk|]].
    + apply (in_map (fun k => (k, group_slice df i k))). exact Hk.
    + apply group_slice_rows. split; [exact Hr|]. exists v. tauto.
  - intros k s k' s' Hks Hks' E.
    apply in_map_iff in Hks. destruct Hks as [k0 [Hk0 Hk]].
    apply in_map_iff in Hks'. destruct Hks' as [k1 [Hk1 Hk']].
    inversion Hk0; subst k0 s. inversion Hk1; subst k1 s'.
    assert (Heq : k = k') by (apply (NoDupA_In_eq _ _ _ Hnd); assumption).
    subst k'. split; reflexivity.
Qed.

Lemma groupby_partition_witness :
  exists slices,
    groupby two_sector_frame sector_column = Ok slices /\
    (forall k s, In (k, s) slices ->
       columns s = columns two_sector_frame /\ values s <> [] /\
       forall r, In r (values s) <->
                 In r (values two_sector_frame) /\
                 exists v, nth 0 r NaN = Fin v /\ v == k) /\
    (forall r v, In r (values two_sector_frame) -> nth 0 r NaN = Fin v ->
       exists k s, In (k, s) slices /\ v == k /\ In r (values s)) /\
    (forall k s k' s', In (k, s) slices -> In (k', s') slices ->
       k == k' -> k = k' /\ s = s').
Proof.
  apply (groupby_partition two_sector_frame sector_column 0).
  vm_compute. reflexivity.
Defined.

Lemma existsb_eqb_In (name : string) (cols : list string) :
  existsb (String.eqb name) cols = true <-> In name cols.
Proof.
  rewrite existsb_exists. split.
  - intros [c [Hc E]]. apply String.eqb_eq in E. subst; exact Hc.
  - intro H. exists name. split; [exact H|apply String.eqb_refl].
Qed.

Lemma handler_cases (sqrt : Q -> Q)
  (attribute_description_df : AttrTable) (input_df : DataFrame) :
  (~ In sector_column (columns input_df) /\
   get_correlation_api sqrt attribute_description_df input_df =
   Ok (BadRequest "CSV must contain a 'sector_unique_id' column.")) \/
  (In sector_column (columns input_df) /\
   exists results,
     get_correlation_api sqrt attribute_description_df input_df =
     Ok (Json results)).
Proof.
  destruct (get_loc (columns input_df) sector_column) as [i|] eqn:L.
  - right. split.
    + destruct (in_dec string_dec sector_column (columns input_df))
        as [H|H]; [exact H|].
      apply get_loc_None in H. congruence.
    + eexists. apply response_eq. exact L.
  - left. apply get_loc_None in L. split; [exact L|].
    unfold get_correlation_api.
    destruct (existsb (String.eqb sector_column) (columns input_df)) eqn:E;
      [|reflexivity].
    apply existsb_eqb_In in E. contradiction.
Qed.

(** X6. On a parsed numeric frame the handler never raises: without the
    sector column it answers the error document of line 37 and
    processes nothing; with it, it answers a list of sector entries,
    which is empty when no row holds a sector value (in particular for
    a frame without rows). *)
Theorem handler_response (sqrt : Q -> Q)
  (attribute_description_df : AttrTable) (input_df : DataFrame) :
  (~ In sector_column (columns input_df) ->
   get_correlation_api sqrt attribute_description_df input_df =
   Ok (BadRequest "CSV must contain a 'sector_unique_id' column.")) /\
  (In sector_column (columns input_df) ->
   exists results,
     get_correlation_api sqrt attribute_description_df input_df =
     Ok (Json results) /\
     ((forall i, get_loc (columns input_df) sector_column = Some i ->
         finite_values (column i input_df) = []) ->
      results = [])).
Proof.
  split.
  - intro H. unfold get_correlation_api.
    destruct (existsb (String.eqb sector_column) (columns input_df)) eqn:E;
      [|reflexivity].
    apply existsb_eqb_In in E. contradiction.
  - intro H.
    destruct (get_loc (columns input_df) sector_column) as [i|] eqn:L.
    + eexists. split; [apply response_eq; exact L|].
      intro Hnone. unfold group_keys. rewrite (Hnone i eq_refl).
      reflexivity.
    + apply get_loc_None in L. contradiction.
Qed.

(* ================================================================== *)
(** ** Quantiles: position, bounds, monotonicity *)

Lemma sortQ_Forall (P : Q -> Prop) (l : list Q) :
  Forall P l -> Forall P (sortQ l).
Proof.
  induction 1 as [|a l Ha Hl IH]; simpl; [constructor|].
  apply insert_sorted_Forall; assumption.
Qed.

Lemma Forall_nth_Q (P : Q -> Prop) (l : list Q) (j : nat) :
  Forall P l -> (j < length l)%nat -> P (nth j l 0).
Proof.
  intros H Hj. rewrite Forall_forall in H. apply H. apply nth_In. exact Hj.
Qed.

Lemma sorted_nth_le (s : list Q) (i j : nat) :
  StronglySorted Qle s -> (i <= j)%nat -> (j < length s)%nat ->
  nth i s 0 <= nth j s 0.
Proof.
  intro Hs. revert i j. induction Hs as [|a s Hs IH Ha]; intros i j Hij Hj.
  - simpl in Hj. lia.
  - destruct i as [|i], j as [|j]; simpl in *.
    + apply Qle_refl.
    + apply (Forall_nth_Q _ _ _ Ha). lia.
    + lia.
    + apply IH; lia.
Qed.

(** Where the quantile sits in the sorted array: an index below [n] and
    a fraction in [0,1), which is 0 when the index is the last one. *)
Lemma quantile_position (n : nat) (q : Q) :
  (1 <= n)%nat -> 0 <= q -> q <= 1 ->
  let h := inject_Z (Z.of_nat n - 1) * q in
  let f := h - inject_Z (Qfloor h) in
  (0 <= Qfloor h)%Z /\ (Z.to_nat (Qfloor h) < n)%nat /\
  0 <= f /\ f < 1 /\
  ((S (Z.to_nat (Qfloor h)) < n)%nat \/ f == 0).
Proof.
  intros Hn Hq0 Hq1 h f.
  set (n1 := inject_Z (Z.of_nat n - 1)) in *.
  assert (Hn1 : 0 <= n1).
  { unfold n1. change 0 with (inject_Z 0). rewrite <- Zle_Qle. lia. }
  assert (Hh0 : 0 <= h) by (unfold h; apply Qmult_le_0_compat; assumption).
  assert (Hh1 : h <= n1) by (unfold h; nra).
  assert (Hfl0 : (0 <= Qfloor h)%Z).
  { change 0%Z with (Qfloor 0). apply Qfloor_resp_le. exact Hh0. }
  assert (Hfl1 : (Qfloor h <= Z.of_nat n - 1)%Z).
  { rewrite Zle_Qle. fold n1. apply Qle_trans with h; [apply Qfloor_le|].
    exact Hh1. }
  pose proof (Qfloor_le h) as Hle. pose proof (Qlt_floor h) as Hlt.
  rewrite inject_Z_plus in Hlt. change (inject_Z 1) with 1 in Hlt.
  split; [exact Hfl0|]. split; [lia|].
  split; [unfold f; lra|]. split; [unfold f; lra|].
  destruct (Z.eq_dec (Qfloor h) (Z.of_nat n - 1)) as [E|NE].
  - right. unfold f. rewrite E. fold n1. rewrite E in Hle. fold n1 in Hle.
    lra.
  - left. lia.
Qed.

(** A quantile lies between any two bounds of the values. *)
Lemma linear_quantile_bounds (vals : list Q) (q m M : Q) :
  vals <> [] -> 0 <= q -> q <= 1 ->
  Forall (fun v => m <= v /\ v <= M) vals ->
  m <= linear_quantile vals q /\ linear_quantile vals q <= M.
Proof.
  intros Hne Hq0 Hq1 Hb. unfold linear_quantile.
  pose proof (sortQ_Forall _ _ Hb) as Hs.
  set (s := sortQ vals) in *.
  assert (Hn : (1 <= length s)%nat).
  { unfold s. rewrite length_sortQ. destruct vals; [congruence|simpl; lia]. }
  destruct (quantile_position (length s) q Hn Hq0 Hq1)
    as [_ [Hlo [Hf0 [Hf1 Hnext]]]].
  set (h := inject_Z (Z.of_nat (length s) - 1) * q) in *.
  set (f := h - inject_Z (Qfloor h)) in *.
  pose proof (Forall_nth_Q _ _ _ Hs Hlo) as [Ha1 Ha2].
  destruct Hnext as [Hnext|Hzero].
  - pose proof (Forall_nth_Q _ _ _ Hs Hnext) as [Hb1 Hb2].
    split; nra.
  - rewrite Hzero. split; lra.
Qed.

(** The quantile does not decrease with [q]. *)
Lemma linear_quantile_monotone (vals : list Q) (q q' : Q) :
  vals <> [] -> 0 <= q -> q <= q' -> q' <= 1 ->
  linear_quantile vals q <= linear_quantile vals q'.
Proof.
  intros Hne Hq0 Hqq Hq1. unfold linear_quantile.
  pose proof (sortQ_sorted vals) as Hs.
  set (s := sortQ vals) in *.
  assert (Hn : (1 <= length s)%nat).
  { unfold s. rewrite length_sortQ. destruct vals; [congruence|simpl; lia]. }
  destruct (quantile_position (length s) q Hn Hq0 ltac:(lra))
    as [Hz [Hlo [Hf0 [Hf1 Hnext]]]].
  destruct (quantile_position (length s) q' Hn ltac:(lra) Hq1)
    as [Hz' [Hlo' [Hf0' [Hf1' Hnext']]]].
  set (n1 := inject_Z (Z.of_nat (length s) - 1)) in *.
  assert (Hn1 : 0 <= n1).
  { unfold n1. change 0 with (inject_Z 0). rewrite <- Zle_Qle. lia. }
  set (h := n1 * q) in *. set (h' := n1 * q') in *.
  assert (Hhh : h <= h') by (unfold h, h'; nra).
  assert (Hfl : (Qfloor h <= Qfloor h')%Z) by (apply Qfloor_resp_le; exact Hhh).
  set (lo := Z.to_nat (Qfloor h)) in *. set (lo' := Z.to_nat (Qfloor h')) in *.
  set (f := h - inject_Z (Qfloor h)) in *.
  set (f' := h' - inject_Z (Qfloor h')) in *.
  destruct (Z.eq_dec (Qfloor h) (Qfloor h')) as [E|NE].
  - assert (Elo : lo' = lo) by (unfold lo, lo'; rewrite E; reflexivity).
    rewrite Elo in *.
    assert (Hff : f <= f') by (unfold f, f'; rewrite E; lra).
    destruct Hnext' as [Hnext'|Hzero'].
    + pose proof (sorted_nth_le s lo (S lo) Hs ltac:(lia) Hnext') as Hstep.
      nra.
    + assert (Hzero : f == 0) by lra. rewrite Hzero, Hzero'. lra.
  - assert (Hlt : (S lo <= lo')%nat) by (unfold lo, lo'; lia).
    pose proof (sorted_nth_le s lo (S lo) Hs ltac:(lia) ltac:(lia)) as Hstep.
    pose proof (sorted_nth_le s (S lo) lo' Hs Hlt Hlo') as Hmid.
    assert (Hleft : nth lo s 0 + f * (nth (S lo) s 0 - nth lo s 0)
                    <= nth (S lo) s 0) by nra.
    assert (Hright : nth lo' s 0
                     <= nth lo' s 0 + f' * (nth (S lo') s 0 - nth lo' s 0)).
    { destruct Hnext' as [Hnext'|Hzero'].
      - pose proof (sorted_nth_le s lo' (S lo') Hs ltac:(lia) Hnext').
        nra.
      - rewrite Hzero'. lra. }
    lra.
Qed.

(* ================================================================== *)
(** ** The fences of a field *)

Lemma nth_lower_fence (x : DataFrame) (j : nat) :
  (j < shape1 x)%nat -> nth j (lower_fence x) NaN = lower_at x j.
Proof. intro Hj. rewrite lower_fence_map. apply nth_map_seq. exact Hj. Qed.

Lemma nth_upper_fence (x : DataFrame) (j : nat) :
  (j < shape1 x)%nat -> nth j (upper_fence x) NaN = upper_at x j.
Proof. intro Hj. rewrite upper_fence_map. apply nth_map_seq. exact Hj. Qed.

Lemma nth_quantile (x : DataFrame) (q : Q) (j : nat) :
  (j < shape1 x)%nat ->
  nth j (quantile x q) NaN = column_quantile (column j x) q.
Proof.
  intro Hj. unfold quantile.
  apply (nth_map_seq (fun j => column_quantile (column j x) q)). exact Hj.
Qed.

Lemma column_values_bounds (x : DataFrame) (j : nat) (m M : Q) :
  (forall r v, In r (values x) -> nth j r NaN = Fin v -> m <= v /\ v <= M) ->
  Forall (fun v => m <= v /\ v <= M) (finite_values (column j x)).
Proof.
  intro H. apply Forall_forall. intros v Hv.
  apply finite_values_In_inv in Hv. unfold column in Hv.
  apply in_map_iff in Hv. destruct Hv as [r [Hr Hin]].
  apply (H r v Hin Hr).
Qed.



Lemma constant_values_fences (vals : list Q) (c : Q) :
  vals <> [] -> Forall (fun v => v == c) vals ->
  tukey_lower vals == c /\ tukey_upper vals == c.
Proof.
  intros Hne Hc.
  assert (HF : Forall (fun v => c <= v /\ v <= c) vals).
  { apply Forall_impl with (P := fun v => v == c); [|exact Hc].
    intros v Hv. rewrite Hv. split; apply Qle_refl. }
  destruct (linear_quantile_bounds vals (1#4) c c Hne
              ltac:(lra) ltac:(lra) HF) as [A1 A2].
  destruct (linear_quantile_bounds vals (3#4) c c Hne
              ltac:(lra) ltac:(lra) HF) as [B1 B2].
  unfold tukey_lower, tukey_upper. split; lra.
Qed.



(* ================================================================== *)
(** ** Fields without variance *)

Lemma Qsum_const (l : list Q) (c : Q) :
  (forall v, In v l -> v == c) ->
  Qsum l == inject_Z (Z.of_nat (length l)) * c.
Proof.
  induction l as [|a l IH]; intro H.
  - simpl. ring.
  - cbn [Qsum fold_right length]. fold (Qsum l).
    rewrite (H a) by (left; reflexivity).
    rewrite IH by (intros v Hv; apply H; right; exact Hv).
    rewrite Nat2Z.inj_succ. unfold Z.succ. rewrite inject_Z_plus.
    change (inject_Z 1) with 1. ring.
Qed.

Lemma mean_const (l : list Q) (c : Q) :
  l <> [] -> (forall v, In v l -> v == c) -> mean l == c.
Proof.
  intros Hne H. unfold mean. rewrite (Qsum_const l c H).
  field. destruct l as [|a l]; [congruence|].
  change 0 with (inject_Z 0). rewrite inject_Z_injective.
  simpl length. lia.
Qed.

Lemma pairwise_complete_In (cx cy : list float64) (p : Q * Q) :
  In p (pairwise_complete cx cy) ->
  In (fst p) (finite_values cx) /\ In (snd p) (finite_values cy).
Proof.
  unfold pairwise_complete. intro H. apply in_flat_map in H.
  destruct H as [[u v] [Huv Hp]].
  destruct u as [a|]; [|contradiction].
  destruct v as [b|]; [|contradiction].
  destruct Hp as [<-|[]]. simpl. split; apply finite_values_In.
  - apply (in_combine_l _ _ _ _ Huv).
  - apply (in_combine_r _ _ _ _ Huv).
Qed.

Section ZeroVariance.

Variable sqrt : Q -> Q.
Hypothesis sqrt_zero : forall s, s == 0 -> sqrt s == 0.

Lemma nancorr_zero_divisor (cx cy : list float64) :
  (let obs := pairwise_complete cx cy in
   Qsum (map (fun p => (fst p - mean (map fst obs))
                       * (fst p - mean (map fst obs))) obs) == 0 \/
   Qsum (map (fun p => (snd p - mean (map snd obs))
                       * (snd p - mean (map snd obs))) obs) == 0) ->
  nancorr_cell sqrt 1 cx cy = NaN.
Proof.
  intro H. unfold nancorr_cell. cbv zeta in H |- *.
  destruct (length (pairwise_complete cx cy) <? 1)%nat; [reflexivity|].
  replace (Qeq_bool _ 0) with true; [reflexivity|].
  symmetry. apply Qeq_bool_iff. apply sqrt_zero.
  destruct H as [H|H]; rewrite H; ring.
Qed.

Lemma deviations_zero {A : Type} (g : A -> Q) (obs : list A) :
  (forall a b, In a obs -> In b obs -> g a == g b) ->
  Qsum (map (fun p => (g p - mean (map g obs)) * (g p - mean (map g obs)))
            obs) == 0.
Proof.
  intro H.
  apply (Qsum_squares_zero (fun p => g p - mean (map g obs))).
  intros p Hp.
  assert (Hm : mean (map g obs) == g p).
  { apply mean_const.
    - destruct obs; [contradiction|discriminate].
    - intros v Hv. apply in_map_iff in Hv. destruct Hv as [p' [<- Hp']].
      apply H; assumption. }
  rewrite Hm. ring.
Qed.

Lemma nancorr_const_left (cx cy : list float64) :
  (forall a b, In a (finite_values cx) -> In b (finite_values cx) -> a == b) ->
  nancorr_cell sqrt 1 cx cy = NaN.
Proof.
  intro H. apply nancorr_zero_divisor. left.
  apply (deviations_zero fst). intros p p' Hp Hp'.
  apply H; apply (pairwise_complete_In cx cy); assumption.
Qed.

Lemma nancorr_const_right (cx cy : list float64) :
  (forall a b, In a (finite_values cy) -> In b (finite_values cy) -> a == b) ->
  nancorr_cell sqrt 1 cx cy = NaN.
Proof.
  intro H. apply nancorr_zero_divisor. right.
  apply (deviations_zero snd). intros p p' Hp Hp'.
  apply H; apply (pairwise_complete_In cx cy); assumption.
Qed.

End ZeroVariance.

(** X9. In a returned matrix, a field that is constant over the cleaned
    rows has [None] in its whole row and its whole column (for a square
    root with [sqrt 0 = 0]). *)
Theorem constant_field_cells_none (sqrt : Q -> Q)
  (sqrt_zero : forall s, s == 0 -> sqrt s == 0)
  (df : DataFrame) (fields : list string) (sel : DataFrame)
  (res : CorrResult) (i : nat) :
  getitem df fields = Ok sel ->
  calculate_correlation_matrix sqrt df fields = Ok (Some res) ->
  (i < length fields)%nat ->
  (forall a b,
      In a (finite_values (column i (remove_outliers (dropna sel)))) ->
      In b (finite_values (column i (remove_outliers (dropna sel)))) ->
      a == b) ->
  forall j, (j < length fields)%nat ->
    nth j (nth i (matrix res) []) PyNone = PyNone /\
    nth i (nth j (matrix res) []) PyNone = PyNone.
Proof.
  intros E H Hi Hconst j Hj.
  rewrite (calculate_eq sqrt _ _ _ E) in H. unfold engine_result in H.
  destruct (_ || _); [discriminate H|].
  destruct (values (remove_outliers (dropna sel))) eqn:V; [discriminate H|].
  inversion H; subst res; clear H. cbn [matrix].
  set (x := remove_outliers (dropna sel)) in *.
  assert (HK : shape1 x = length fields).
  { destruct (getitem_Ok _ _ _ E) as [Hc _]. unfold shape1.
    rewrite <- Hc. reflexivity. }
  rewrite !corr_cell by (rewrite HK; assumption).
  rewrite (Nat.max_comm j i), (Nat.min_comm j i).
  assert (Hcell : nancorr_cell sqrt 1 (column (Nat.max i j) x)
                                      (column (Nat.min i j) x) = NaN).
  { destruct (Nat.le_ge_cases i j) as [L|L].
    - rewrite (Nat.max_r _ _ L), (Nat.min_l _ _ L).
      apply nancorr_const_right; assumption.
    - rewrite (Nat.max_l _ _ L), (Nat.min_r _ _ L).
      apply nancorr_const_left; assumption. }
  rewrite Hcell. split; reflexivity.
Qed.

Lemma constant_field_cells_none_witness :
  nth 1 (nth 0 [[PyNone; PyNone]; [PyNone; PyFloat (Fin (32 # 32))]] [])
      PyNone = PyNone /\
  nth 0 (nth 1 [[PyNone; PyNone]; [PyNone; PyFloat (Fin (32 # 32))]] [])
      PyNone = PyNone.
Proof.
  apply (constant_field_cells_none Qsqrt Qsqrt_zero constant_frame
           ["A"; "B"]%string constant_frame
           {| matrix := [[PyNone; PyNone]; [PyNone; PyFloat (Fin (32 # 32))]];
              headers := ["A"; "B"]%string |} 0).
  - vm_compute; reflexivity.
  - vm_compute; reflexivity.
  - vm_compute; lia.
  - vm_compute. intros a b [<-|[<-|[]]] [<-|[<-|[]]]; reflexivity.
  - vm_compute; lia.
Defined.

(* ================================================================== *)
(** ** Small samples *)

Lemma insert_sorted_In (v a : Q) (l : list Q) :
  In v (insert_sorted a l) <-> v = a \/ In v l.
Proof.
  induction l as [|b l IH]; simpl.
  - intuition congruence.
  - destruct (Qle_bool a b); simpl; [intuition congruence|].
    rewrite IH. intuition congruence.
Qed.

Lemma sortQ_In (v : Q) (l : list Q) : In v (sortQ l) <-> In v l.
Proof.
  induction l as [|a l IH]; simpl; [reflexivity|].
  rewrite insert_sorted_In, IH. intuition congruence.
Qed.

Lemma quartiles_three (a b c : Q) :
  let s := sortQ [a; b; c] in
  linear_quantile [a; b; c] (1#4) ==
    nth 0 s 0 + (1#2) * (nth 1 s 0 - nth 0 s 0) /\
  linear_quantile [a; b; c] (3#4) ==
    nth 1 s 0 + (1#2) * (nth 2 s 0 - nth 1 s 0).
Proof.
  intro s. unfold linear_quantile. fold s.
  replace (length s) with 3%nat by (unfold s; rewrite length_sortQ; reflexivity).
  change (Qfloor (inject_Z (Z.of_nat 3 - 1) * (1 # 4))) with 0%Z.
  change (Qfloor (inject_Z (Z.of_nat 3 - 1) * (3 # 4))) with 1%Z.
  change (Z.to_nat 0) with 0%nat. change (Z.to_nat 1) with 1%nat.
  change (inject_Z (Z.of_nat 3 - 1) * (1 # 4)) with (2#4).
  change (inject_Z (Z.of_nat 3 - 1) * (3 # 4)) with (6#4).
  change (inject_Z 0) with 0. change (inject_Z 1) with 1.
  split; ring.
Qed.

Lemma three_values_fences (a b c v : Q) :
  In v [a; b; c] ->
  tukey_lower [a; b; c] <= v /\ v <= tukey_upper [a; b; c].
Proof.
  intro Hv. unfold tukey_lower, tukey_upper.
  destruct (quartiles_three a b c) as [-> ->].
  pose proof (sortQ_sorted [a; b; c]) as Hs.
  pose proof (length_sortQ [a; b; c]) as Hl.
  apply sortQ_In in Hv.
  destruct (sortQ [a; b; c]) as [|s0 [|s1 [|s2 [|s3 rest]]]];
    try discriminate Hl.
  cbn [nth].
  pose proof (sorted_nth_le _ 0 1 Hs ltac:(lia) ltac:(simpl; lia)) as H01.
  pose proof (sorted_nth_le _ 1 2 Hs ltac:(lia) ltac:(simpl; lia)) as H12.
  cbn [nth] in H01, H12.
  destruct Hv as [<-|[<-|[<-|[]]]]; split; lra.
Qed.

Lemma small_values_fences (vals : list Q) (v : Q) :
  (length vals <= 3)%nat -> In v vals ->
  tukey_lower vals <= v /\ v <= tukey_upper vals.
Proof.
  intros Hl Hv.
  destruct vals as [|a [|b [|c [|d rest]]]]; [contradiction| | | |simpl in Hl; lia].
  - destruct Hv as [<-|[]].
    destruct (constant_values_fences [a] a) as [L U];
      [discriminate|repeat constructor; reflexivity|].
    rewrite L, U. split; apply Qle_refl.
  - destruct (two_values_fences a b) as [La [Lb [Ua Ub]]].
    destruct Hv as [<-|[<-|[]]]; split; assumption.
  - apply three_values_fences. exact Hv.
Qed.

Lemma finite_values_length (col : list float64) :
  (length (finite_values col) <= length col)%nat.
Proof.
  unfold finite_values. induction col as [|[q|] col IH]; simpl; lia.
Qed.

Lemma filter_all {A : Type} (f : A -> bool) (l : list A) :
  (forall a, In a l -> f a = true) -> filter f l = l.
Proof.
  intro H. apply forallb_filter_id. apply forallb_forall. exact H.
Qed.



(* ================================================================== *)
(** ** The upload checks *)

Lemma substring_all (s : string) : substring 0 (String.length s) s = s.
Proof. induction s as [|c s IH]; simpl; [reflexivity|]. rewrite IH. reflexivity. Qed.

Lemma substring_append_r (a b : string) :
  substring (String.length a) (String.length b) (a ++ b) = b.
Proof.
  induction a as [|c a IH]; simpl; [apply substring_all|exact IH].
Qed.

Lemma substring_split (s : string) (k : nat) :
  (k <= String.length s)%nat ->
  s = (substring 0 k s ++ substring k (String.length s - k) s)%string.
Proof.
  revert k. induction s as [|c s IH]; intros k Hk.
  - simpl in Hk. assert (k = 0%nat) by lia. subst k. reflexivity.
  - destruct k as [|k].
    + simpl. rewrite substring_all. reflexivity.
    + simpl in Hk. simpl. f_equal. apply IH. lia.
Qed.

Lemma length_append (a b : string) :
  String.length (a ++ b) = (String.length a + String.length b)%nat.
Proof. induction a as [|c a IH]; simpl; [reflexivity|]. rewrite IH. reflexivity. Qed.

Lemma endswith_iff (s suffix : string) :
  endswith s suffix = true <-> exists base, s = (base ++ suffix)%string.
Proof.
  unfold endswith. rewrite andb_true_iff, Nat.leb_le, String.eqb_eq. split.
  - intros [Hle Hsub].
    exists (substring 0 (String.length s - String.length suffix) s).
    pose proof (substring_split s
                  (String.length s - String.length suffix) ltac:(lia)) as H.
    replace (String.length s - (String.length s - String.length suffix))%nat
      with (String.length suffix) in H by lia.
    rewrite Hsub in H. exact H.
  - intros [base ->]. rewrite length_append. split; [lia|].
    replace (String.length base + String.length suffix
             - String.length suffix)%nat
      with (String.length base) by lia.
    apply substring_append_r.
Qed.


(* ================================================================== *)
(** ** Linearly related fields *)

Lemma Qsum_ext {A : Type} (f g : A -> Q) (l : list A) :
  (forall a, In a l -> f a == g a) ->
  Qsum (map f l) == Qsum (map g l).
Proof.
  induction l as [|a l IH]; intro H; simpl; [reflexivity|].
  rewrite (H a) by (left; reflexivity).
  rewrite IH by (intros b Hb; apply H; right; exact Hb). reflexivity.
Qed.

Lemma Qsum_scale {A : Type} (c : Q) (f : A -> Q) (l : list A) :
  Qsum (map (fun a => c * f a) l) == c * Qsum (map f l).
Proof.
  induction l as [|a l IH]; simpl; [ring|]. rewrite IH. ring.
Qed.

Lemma Qsum_affine {A : Type} (k t : Q) (f : A -> Q) (l : list A) :
  Qsum (map (fun a => k * f a + t) l) ==
  k * Qsum (map f l) + inject_Z (Z.of_nat (length l)) * t.
Proof.
  induction l as [|a l IH].
  - simpl. ring.
  - cbn [map Qsum fold_right length]. fold (Qsum (map f l)).
    fold (Qsum (map (fun a => k * f a + t) l)). rewrite IH.
    rewrite Nat2Z.inj_succ. unfold Z.succ. rewrite inject_Z_plus.
    change (inject_Z 1) with 1. ring.
Qed.

Lemma mean_affine {A : Type} (k t : Q) (f g : A -> Q) (l : list A) :
  l <> [] -> (forall a, In a l -> g a == k * f a + t) ->
  mean (map g l) == k * mean (map f l) + t.
Proof.
  intros Hne H. unfold mean. rewrite !length_map.
  rewrite (Qsum_ext g (fun a => k * f a + t) l H), Qsum_affine.
  field. destruct l as [|a l]; [congruence|].
  change 0 with (inject_Z 0). rewrite inject_Z_injective.
  simpl length. lia.
Qed.

Lemma combine_map_same {A B C : Type} (f : A -> B) (g : A -> C)
  (l : list A) :
  combine (map f l) (map g l) = map (fun a => (f a, g a)) l.
Proof. induction l as [|a l IH]; simpl; [reflexivity|]. rewrite IH. reflexivity. Qed.

Lemma pairwise_complete_columns (x : DataFrame) (i j : nat) (p : Q * Q) :
  In p (pairwise_complete (column i x) (column j x)) <->
  exists r, In r (values x) /\
            nth i r NaN = Fin (fst p) /\ nth j r NaN = Fin (snd p).
Proof.
  unfold pairwise_complete, column. rewrite combine_map_same, in_flat_map.
  split.
  - intros [[u v] [Huv Hp]]. apply in_map_iff in Huv.
    destruct Huv as [r [Hr Hin]]. inversion Hr; subst u v; clear Hr.
    exists r. split; [exact Hin|].
    destruct (nth i r NaN) as [a|]; [|contradiction].
    destruct (nth j r NaN) as [b|]; [|contradiction].
    destruct Hp as [<-|[]]. split; reflexivity.
  - intros [r [Hin [Hi Hj]]]. exists (nth i r NaN, nth j r NaN). split.
    + apply (in_map (fun r => (nth i r NaN, nth j r NaN))). exact Hin.
    + rewrite Hi, Hj. left. destruct p; reflexivity.
Qed.

Section LinearRelation.

Variable sqrt : Q -> Q.
Hypothesis sqrt_proper : forall s t, s == t -> sqrt s == sqrt t.
Hypothesis sqrt_square : forall s, 0 <= s -> sqrt (s * s) == s.

Lemma nancorr_linear (cx cy : list float64) (k t : Q) :
  0 < k ->
  (forall p, In p (pairwise_complete cx cy) -> fst p == k * snd p + t) ->
  (exists p p', In p (pairwise_complete cx cy) /\
                In p' (pairwise_complete cx cy) /\ ~ snd p == snd p') ->
  exists q, nancorr_cell sqrt 1 cx cy = Fin q /\ q == 1.
Proof.
  intros Hk Hlin [p1 [p2 [Hp1 [Hp2 Hdiff]]]]. unfold nancorr_cell.
  set (obs := pairwise_complete cx cy) in *.
  assert (Hne : obs <> []) by (intro E0; rewrite E0 in Hp1; exact Hp1).
  replace (length obs <? 1)%nat with false
    by (destruct obs; [congruence|reflexivity]).
  cbv zeta.
  set (mx := mean (map fst obs)). set (my := mean (map snd obs)).
  assert (Hm : mx == k * my + t)
    by (apply (mean_affine k t snd fst obs Hne Hlin)).
  set (ssy := Qsum (map (fun p => (snd p - my) * (snd p - my)) obs)).
  assert (Hssx : Qsum (map (fun p => (fst p - mx) * (fst p - mx)) obs)
                 == (k * k) * ssy).
  { unfold ssy. rewrite <- Qsum_scale. apply Qsum_ext. intros p Hp.
    rewrite (Hlin p Hp), Hm. ring. }
  assert (Hcov : Qsum (map (fun p => (fst p - mx) * (snd p - my)) obs)
                 == k * ssy).
  { unfold ssy. rewrite <- Qsum_scale. apply Qsum_ext. intros p Hp.
    rewrite (Hlin p Hp), Hm. ring. }
  assert (Hy0 : 0 <= ssy)
    by (apply (Qsum_squares_nonneg (fun p => snd p - my))).
  assert (Hy : ~ ssy == 0).
  { intro Z. apply Hdiff.
    pose proof (proj1 (Qsum_squares_zero (fun p => snd p - my) obs) Z) as Hz.
    pose proof (Hz p1 Hp1) as Z1. pose proof (Hz p2 Hp2) as Z2.
    cbv beta in Z1, Z2. lra. }
  assert (Hpos : 0 < k * ssy) by nra.
  assert (Hdiv : sqrt (Qsum (map (fun p => (fst p - mx) * (fst p - mx)) obs)
                       * ssy) == k * ssy).
  { rewrite <- (sqrt_square (k * ssy)) by lra.
    apply sqrt_proper. rewrite Hssx. ring. }
  replace (Qeq_bool _ 0) with false.
  - cbn [negb]. eexists. split; [reflexivity|].
    apply clip_one. rewrite Hdiv, Hcov. field. lra.
  - symmetry. destruct (Qeq_bool _ 0) eqn:B; [|reflexivity].
    apply Qeq_bool_iff in B. rewrite Hdiv in B. lra.
Qed.

End LinearRelation.

Lemma Qsqrt_proper (s t : Q) : s == t -> Qsqrt s == Qsqrt t.
Proof.
  intro H. unfold Qsqrt. rewrite (Qred_complete s t H). reflexivity.
Qed.



(* ================================================================== *)
(** ** Selection and complete cases *)

Lemma mapM_loc_cells (df : DataFrame) (fields : list string)
  (idxs : list nat) (r : list float64) :
  mapM (fun f => match get_loc (columns df) f with
                 | Some i => Ok i
                 | None => KeyError f
                 end) fields = Ok idxs ->
  map (fun i => nth i r NaN) idxs = map (cell df r) fields.
Proof.
  revert idxs. induction fields as [|f fields IH]; intros idxs H; simpl in H.
  - inversion H; reflexivity.
  - destruct (get_loc (columns df) f) as [i|] eqn:L; [|discriminate H].
    simpl in H.
    destruct (mapM _ fields) as [ixs|]; [|discriminate H].
    simpl in H. inversion H; subst idxs. cbn [map].
    f_equal; [unfold cell; rewrite L; reflexivity|].
    apply IH. reflexivity.
Qed.

Lemma filter_map_comm {A B : Type} (p : B -> bool) (f : A -> B)
  (l : list A) :
  filter p (map f l) = map f (filter (fun a => p (f a)) l).
Proof.
  induction l as [|a l IH]; simpl; [reflexivity|].
  destruct (p (f a)); simpl; rewrite IH; reflexivity.
Qed.

Lemma forallb_map {A B : Type} (p : B -> bool) (f : A -> B) (l : list A) :
  forallb p (map f l) = forallb (fun a => p (f a)) l.
Proof.
  induction l as [|a l IH]; simpl; [reflexivity|]. rewrite IH. reflexivity.
Qed.

(** X13. The complete cases of a selection are the rows of the frame,
    in their order, whose cells under the selected fields are all
    present, each reduced to these cells in the order of the field
    list: a missing value under a column that is not selected never
    drops a row. *)
Theorem complete_case_selection (df : DataFrame) (fields : list string)
  (sel : DataFrame) :
  getitem df fields = Ok sel ->
  columns (dropna sel) = fields /\
  values (dropna sel) =
    map (fun r => map (cell df r) fields)
        (filter (fun r => forallb (fun f => notna (cell df r f)) fields)
                (values df)).
Proof.
  unfold getitem. intro H.
  destruct (mapM _ fields) as [idxs|] eqn:M; [|discriminate H].
  simpl in H. inversion H; subst sel; clear H.
  split; [reflexivity|]. unfold dropna. cbn [values].
  rewrite filter_map_comm.
  rewrite (filter_ext _ (fun r => forallb (fun f => notna (cell df r f))
                                         fields)).
  - apply map_ext. intro r. apply (mapM_loc_cells df fields idxs r M).
  - intro r. rewrite (mapM_loc_cells df fields idxs r M).
    apply forallb_map.
Qed.

Lemma complete_case_selection_witness :
  columns (dropna scenario_frame) = ["A"; "B"]%string /\
  values (dropna scenario_frame) =
    map (fun r => map (cell scenario_frame r) ["A"; "B"]%string)
        (filter (fun r => forallb (fun f => notna (cell scenario_frame r f))
                                  ["A"; "B"]%string)
                (values scenario_frame)).
Proof.
  apply (complete_case_selection scenario_frame ["A"; "B"]%string
           scenario_frame).
  vm_compute. reflexivity.
Defined.

(* ================================================================== *)
(** ** Order of the resolved fields *)

Lemma unique_from_seen_ext (seen seen' l : list string) :
  (forall c, existsb (String.eqb c) seen = existsb (String.eqb c) seen') ->
  unique_from String.eqb seen l = unique_from String.eqb seen' l.
Proof.
  revert seen seen'. induction l as [|b l IH]; intros seen seen' H;
    simpl; [reflexivity|].
  rewrite <- (H b). destruct (existsb (String.eqb b) seen).
  - apply IH. exact H.
  - f_equal. apply IH. intro c. simpl. rewrite (H c). reflexivity.
Qed.

Lemma unique_from_cons_seen (a : string) (seen l : list string) :
  unique_from String.eqb (a :: seen) l =
  filter (fun b => negb (String.eqb a b)) (unique_from String.eqb seen l).
Proof.
  revert seen. induction l as [|b l IH]; intro seen; [reflexivity|].
  cbn [unique_from existsb].
  destruct (existsb (String.eqb b) seen) eqn:Es.
  - rewrite orb_true_r. apply IH.
  - rewrite orb_false_r. destruct (String.eqb b a) eqn:Eba.
    + apply String.eqb_eq in Eba. subst b.
      cbn [filter]. rewrite String.eqb_refl. cbn [negb].
      rewrite <- IH. apply unique_from_seen_ext. intro c. simpl.
      destruct (String.eqb c a); reflexivity.
    + cbn [filter]. rewrite (String.eqb_sym a b), Eba. cbn [negb].
      f_equal. rewrite <- IH. apply unique_from_seen_ext. intro c. simpl.
      destruct (String.eqb c a), (String.eqb c b); reflexivity.
Qed.

(** X14. The resolver lists a group's fields in the order of their
    first appearance in the table: the field of the first row of the
    group comes first, followed by the fields resolved from the rest of
    the table without that field; a row of another group changes
    nothing. *)
Theorem get_fields_for_group_cons (r : AttrRow)
  (attribute_description_df : AttrTable) (group_name : string) :
  get_fields_for_group (r :: attribute_description_df) group_name =
  if String.eqb (group r) group_name then
    field r ::
    filter (fun f => negb (String.eqb (field r) f))
           (get_fields_for_group attribute_description_df group_name)
  else get_fields_for_group attribute_description_df group_name.
Proof.
  unfold get_fields_for_group. cbn [filter].
  destruct (String.eqb (group r) group_name); [|reflexivity].
  cbn [map]. unfold unique. cbn [unique_from existsb].
  f_equal. apply unique_from_cons_seen.
Qed.
